(** * notes: a CRUD note service with a REPL and an HTTP front-end

    Shallow embedding of [main.go].  The package-level variables [id] and
    [noteMap] are the state that every storage method threads; a Go [int]
    is a 64-bit two's-complement integer, modelled as a [Z] with the
    wrap-around of [+] written out; a Go [string] is a sequence of bytes,
    modelled as [string]; a [panic] is an explicit outcome.

    Layout: the Go standard-library functions the program calls
    ([strconv.Atoi], [strings.TrimSpace], [strings.Split], [fmt.Println],
    [encoding/json], [net/http]), then the program top to bottom, then the
    lemmas and theorems. *)

From Stdlib Require Import ZArith Lia String Ascii List.
From Stdlib Require Import DecimalString DecimalPos.
From stdpp Require Import base numbers list strings gmap.

Local Open Scope string_scope.
Local Open Scope list_scope.
Local Open Scope Z_scope.

(* ================================================================== *)
(** ** Go's [int] *)

Module GoInt.
(** [strconv.IntSize] on the 64-bit platforms Go targets by default. *)
Definition intSize : Z := 64.
Definition modulus : Z := 2 ^ intSize.
Definition minInt : Z := - 2 ^ (intSize - 1).
Definition maxInt : Z := 2 ^ (intSize - 1) - 1.

Definition in_range (z : Z) : Prop := minInt ≤ z ≤ maxInt.

(** The value an [int] holds after an operation whose mathematical
    result is [z]: Go integer arithmetic wraps around silently. *)
Definition wrap (z : Z) : Z := (z - minInt) `mod` modulus + minInt.

Definition add (a b : Z) : Z := wrap (a + b).
End GoInt.

(* ================================================================== *)
(** ** Panics *)

Inductive NumErr := ErrSyntax | ErrRange.

(** [*strconv.NumError]. *)
Record NumError := mkNumError { Func : string; Num : string; Err : NumErr }.

Inductive PanicValue :=
| IndexOutOfRange (index len : nat)  (* runtime error: index out of range [index] with length len *)
| PanicError (err : NumError)        (* panic(err) with the error of strconv.Atoi *)
| PanicReadError                     (* panic(err) with the error of ReadString *)
| PanicString (msg : string).        (* panic("...") *)

(** A pure computation that returns or panics. *)
Inductive Exec (A : Type) :=
| Ret (a : A)
| Panic (p : PanicValue).
Arguments Ret {A} a.
Arguments Panic {A} p.

(** A computation over the state [S] that returns or panics; a panic
    keeps the state it happened in. *)
Inductive Outcome (S A : Type) :=
| Done (a : A) (s : S)
| Panicked (p : PanicValue) (s : S).
Arguments Done {S A} a s.
Arguments Panicked {S A} p s.

Definition M (S A : Type) : Type := S → Outcome S A.

Definition mret {S A} (a : A) : M S A := λ s, Done a s.

Definition mbind {S A B} (m : M S A) (f : A → M S B) : M S B :=
  λ s, match m s with
       | Done a s' => f a s'
       | Panicked p s' => Panicked p s'
       end.

(** Running a pure, possibly panicking step inside a stateful one. *)
Definition liftE {S A} (e : Exec A) : M S A :=
  λ s, match e with
       | Ret a => Done a s
       | Panic p => Panicked p s
       end.

(** Running a step that cannot panic. *)
Definition liftS {S A} (f : S → A * S) : M S A :=
  λ s, let '(a, s') := f s in Done a s'.

Definition ebind {A B} (e : Exec A) (f : A → Exec B) : Exec B :=
  match e with
  | Ret a => f a
  | Panic p => Panic p
  end.

Notation "x <- m ;; k" := (mbind m (λ x, k))
  (at level 100, m at next level, right associativity, only parsing).
Notation "x <~ e ;; k" := (ebind e (λ x, k))
  (at level 100, e at next level, right associativity, only parsing).

(** [s[i]] on a slice: a run-time panic when [i] is out of range. *)
Definition index {A} (s : list A) (i : nat) : Exec A :=
  match s !! i with
  | Some x => Ret x
  | None => Panic (IndexOutOfRange i (length s))
  end.

(* ================================================================== *)
(** ** [strconv] *)

Module strconv.
Definition byte (c : ascii) : Z := Z.of_N (N_of_ascii c).

Definition digit (c : ascii) : option Z :=
  let b := byte c in
  if (48 <=? b) && (b <=? 57) then Some (b - 48) else None.

(** The sign that a numeral starts with, if any, and the rest. *)
Definition signed (s : string) : bool * string :=
  match s with
  | String "-" r => (true, r)
  | String "+" r => (false, r)
  | _ => (false, s)
  end.

(** The largest [uint64]. *)
Definition maxUint64 : Z := 2 ^ 64 - 1.

(** The loop of [strconv.ParseUint] in base 10 at 64 bits, [n] being the
    [uint64] read so far.  The bytes are taken from left to right and the
    first one that cannot be taken decides the error: a byte that is not
    a digit is a syntax error with value [0]; a digit at which [n * 10]
    (the test against the cutoff [maxUint64 / 10 + 1]) or [n * 10 + d]
    (the sum has wrapped below [n * 10]) leaves [uint64] is a range error
    with value [maxUint64], whatever bytes follow it. *)
Fixpoint parseUint (n : Z) (s : string) : Z * option NumErr :=
  match s with
  | EmptyString => (n, None)
  | String c r =>
      match digit c with
      | None => (0, Some ErrSyntax)
      | Some d =>
          if maxUint64 / 10 + 1 <=? n
          then (maxUint64, Some ErrRange)
          else
            let n10 := n * 10 in
            let n1 := (n10 + d) `mod` 2 ^ 64 in
            if (n1 <? n10) || (maxUint64 <? n1)
            then (maxUint64, Some ErrRange)
            else parseUint n1 r
      end
  end.

(** [strconv.ParseUint(s, 10, 0)]. *)
Definition ParseUint (s : string) : Z * option NumErr :=
  match s with
  | EmptyString => (0, Some ErrSyntax)
  | _ => parseUint 0 s
  end.

(** [strconv.ParseInt(s, 10, 0)]: the sign is picked off, the rest goes
    through [ParseUint]; its syntax error is passed on, and its value,
    also that of a range error, is tested against the cutoff [2 ^ 63].
    The conversion [int64(un)] and the negation are those of [int]. *)
Definition ParseInt (s : string) : Z * option NumErr :=
  match s with
  | EmptyString => (0, Some ErrSyntax)
  | _ =>
      let '(neg, body) := signed s in
      match ParseUint body with
      | (_, Some ErrSyntax) => (0, Some ErrSyntax)
      | (un, _) =>
          let cutoff := 2 ^ 63 in
          if negb neg && (cutoff <=? un)
          then (cutoff - 1, Some ErrRange)
          else if neg && (cutoff <? un)
          then (- cutoff, Some ErrRange)
          else
            let n := GoInt.wrap un in
            (if neg then GoInt.wrap (- n) else n, None)
      end
  end.

(** [strconv.Atoi]: [ParseInt(s, 10, 0)], the error being a [*NumError]
    that names [Atoi] and the whole of [s].  (For a string of fewer than
    19 bytes Go takes a shortcut that reads the sign and the digits in one
    loop without range tests; it returns the same number and the same
    error.)  So [Atoi] accepts an optional sign followed by at least one
    decimal digit, nothing else, when the value fits an [int]; as in Go
    the result is a number together with an error: [0] with a syntax
    error, the nearest bound with a range error. *)
Definition Atoi (s : string) : Z * option NumError :=
  let '(n, err) := ParseInt s in
  (n, mkNumError "Atoi" s <$> err).

(** The value of a run of decimal digits, [None] when a byte is not a
    digit: what [parseUint] computes as long as the value fits. *)
Fixpoint digits (acc : Z) (s : string) : option Z :=
  match s with
  | EmptyString => Some acc
  | String c r =>
      match digit c with
      | Some d => digits (10 * acc + d) r
      | None => None
      end
  end.

(** A decimal numeral: an optional sign and one or more digits. *)
Fixpoint allDigits (s : string) : bool :=
  match s with
  | EmptyString => true
  | String c r => bool_decide (is_Some (digit c)) && allDigits r
  end.

Definition isNumeric (s : string) : bool :=
  let body := (signed s).2 in
  negb (body =? "")%string && allDigits body.

(** [strconv.Itoa]. *)
Definition Itoa (z : Z) : string := NilZero.string_of_int (Z.to_int z).
End strconv.

(* ================================================================== *)
(** ** [strings] *)

Module strings.
Import strconv.

(** The white-space runes, by the bytes of their UTF-8 encodings.
    [unicode.IsSpace] holds of U+0009..U+000D and U+0020 (one byte), of
    U+0085 and U+00A0 (two bytes: C2 85, C2 A0), and of U+1680, U+2000..U+200A,
    U+2028, U+2029, U+202F, U+205F and U+3000 (three bytes: E1 9A 80,
    E2 80 80..8A, E2 80 A8, E2 80 A9, E2 80 AF, E2 81 9F, E3 80 80). *)
Definition asciiSpace (b : Z) : bool :=
  ((9 <=? b) && (b <=? 13)) || (b =? 32).

Definition space2 (b0 b1 : Z) : bool :=
  (b0 =? 194) && ((b1 =? 133) || (b1 =? 160)).

Definition space3 (b0 b1 b2 : Z) : bool :=
  ((b0 =? 225) && (b1 =? 154) && (b2 =? 128))
  || ((b0 =? 226) && (b1 =? 128)
      && (((128 <=? b2) && (b2 <=? 138))
          || (b2 =? 168) || (b2 =? 169) || (b2 =? 175)))
  || ((b0 =? 226) && (b1 =? 129) && (b2 =? 159))
  || ((b0 =? 227) && (b1 =? 128) && (b2 =? 128)).

(** The number of bytes of the white-space rune that the byte sequence
    starts with, [0] when it starts with none. *)
Definition spaceWidth (s : list ascii) : nat :=
  match byte <$> s with
  | b0 :: rest =>
      if asciiSpace b0 then 1%nat
      else match rest with
           | b1 :: rest' =>
               if space2 b0 b1 then 2%nat
               else match rest' with
                    | b2 :: _ => if space3 b0 b1 b2 then 3%nat else 0%nat
                    | [] => 0%nat
                    end
           | [] => 0%nat
           end
  | [] => 0%nat
  end.

(** The same for the rune the sequence ends with, on the reversed
    sequence. *)
Definition spaceWidthRev (r : list ascii) : nat :=
  match byte <$> r with
  | b0 :: rest =>
      if asciiSpace b0 then 1%nat
      else match rest with
           | b1 :: rest' =>
               if space2 b1 b0 then 2%nat
               else match rest' with
                    | b2 :: _ => if space3 b2 b1 b0 then 3%nat else 0%nat
                    | [] => 0%nat
                    end
           | [] => 0%nat
           end
  | [] => 0%nat
  end.

(** Dropping leading white-space runes while there is one. *)
Fixpoint trim (width : list ascii → nat) (fuel : nat) (s : list ascii)
  : list ascii :=
  match fuel with
  | O => s
  | S fuel' =>
      match width s with
      | O => s
      | w => trim width fuel' (drop w s)
      end
  end.

Definition TrimLeftSpace (s : list ascii) : list ascii :=
  trim spaceWidth (length s) s.

Definition TrimRightSpace (s : list ascii) : list ascii :=
  reverse (trim spaceWidthRev (length s) (reverse s)).

(** [strings.TrimSpace]: the string without its leading and trailing
    white space, as defined by Unicode. *)
Definition TrimSpace (s : string) : string :=
  string_of_list_ascii
    (TrimRightSpace (TrimLeftSpace (list_ascii_of_string s))).

(** The pieces of the byte sequence between the occurrences of [sep]:
    one more piece than there are occurrences. *)
Fixpoint split (sep : ascii) (s : list ascii) : list (list ascii) :=
  match s with
  | [] => [[]]
  | c :: r =>
      if Ascii.eqb c sep then [] :: split sep r
      else match split sep r with
           | p :: ps => (c :: p) :: ps
           | [] => [[c]]
           end
  end.

(** [strings.Split] for a separator of one byte, the only use the
    program makes of it. *)
Definition Split (s : string) (sep : ascii) : list string :=
  string_of_list_ascii <$> split sep (list_ascii_of_string s).
End strings.

(* ================================================================== *)
(** ** Values as [fmt] and [encoding/json] see them *)

Module reflect.
#[local] Set Warnings "-register-all".
(** The values the program hands to a presenter ([any]): structs with
    their field names, slices (never nil here), ints and strings. *)
Inductive Value :=
| Int (z : Z)
| Str (s : string)
| Slice (elems : list Value)
| Struct (fields : list (string * Value)).

(** A field is exported when its name starts with an upper-case letter;
    the field names of this program are ASCII. *)
Definition IsExported (name : string) : bool :=
  match name with
  | String c _ => let b := strconv.byte c in (65 <=? b) && (b <=? 90)
  | EmptyString => false
  end.
End reflect.

Module fmt.
Import reflect.

(** The default format [%v]: fields and elements separated by one
    space, structs in braces, slices in brackets, unexported fields
    included. *)
Fixpoint Sprint (v : Value) : string :=
  match v with
  | Int z => strconv.Itoa z
  | Str s => s
  | Slice elems => "[" +:+ String.concat " " (map Sprint elems) +:+ "]"
  | Struct fields =>
      "{" +:+ String.concat " " (map (λ f, Sprint (snd f)) fields) +:+ "}"
  end.

(** [fmt.Println] of one operand: what it writes to standard output. *)
Definition Println (v : Value) : string := Sprint v +:+ "
".
End fmt.

Module json.
Import reflect.

(** [encoding/json]: a struct becomes an object of its exported fields
    only, a slice an array.  [quote] is the encoder of string literals
    (quoting and escaping), which no theorem below depends on. *)
Fixpoint Marshal (quote : string → string) (v : Value) : string :=
  match v with
  | Int z => strconv.Itoa z
  | Str s => quote s
  | Slice elems => "[" +:+ String.concat "," (map (Marshal quote) elems) +:+ "]"
  | Struct fields =>
      "{" +:+
      String.concat ","
        (concat (map (λ f, if IsExported (fst f)
                            then [quote (fst f) +:+ ":" +:+ Marshal quote (snd f)]
                            else []) fields))
      +:+ "}"
  end.

(** The string-literal encoder on the strings that need no escaping:
    the string between double quotes. *)
Definition quotePlain (s : string) : string :=
  String "034" (s +:+ String "034" EmptyString).

(** [json.NewEncoder(w).Encode(v)]: the encoding and a newline. *)
Definition Encode (quote : string → string) (v : Value) : string :=
  Marshal quote v +:+ "
".
End json.

(* ================================================================== *)
(** ** Entity *)

Abbreviation Id := Z (only parsing).
Abbreviation Name := string (only parsing).
Abbreviation Content := string (only parsing).

Record Note := mkNote {
  Note_id : Id;
  Note_name : Name;
  Note_content : Content
}.

Abbreviation NoteList := (list Note) (only parsing).

(** The zero value of [Note], which indexing [noteMap] at an absent key
    yields. *)
Definition zeroNote : Note := mkNote 0 "" "".

(* ================================================================== *)
(** ** Storage *)

(** The [Storage] interface, over the state [S] its methods act on. *)
Class Storage (S : Type) := {
  ReadAll : S → NoteList;
  Read : Id → S → Note;
  Create : Name → Content → S → Note * S;
  Update : Id → Name → Content → S → Note * S;
  Delete : Id → S → Note * S
}.

(** The package-level variables [id] and [noteMap]. *)
Record Globals := mkGlobals {
  id : Id;
  noteMap : gmap Id Note
}.

(** Their initial values: [var id Id = 0] and an empty map. *)
Definition initial : Globals := mkGlobals 0 ∅.

Module InMemoryStorage.
Definition Read (i : Id) (g : Globals) : Note :=
  default zeroNote (noteMap g !! i).

(** [range noteMap] visits the entries in an order Go leaves
    unspecified; the function takes the order of [map_to_list], and
    [ReadAllMay] is every result the Go code may produce. *)
Definition ReadAll (g : Globals) : NoteList :=
  (map_to_list (noteMap g)).*2.

Definition ReadAllMay (g : Globals) (notes : NoteList) : Prop :=
  notes ≡ₚ ReadAll g.

Definition Create (name : Name) (content : Content) (g : Globals)
  : Note * Globals :=
  let newId := GoInt.add (id g) 1 in
  let newNote := mkNote newId name content in
  (newNote, mkGlobals newId (<[newId := newNote]> (noteMap g))).

Definition Update (i : Id) (name : Name) (content : Content) (g : Globals)
  : Note * Globals :=
  let note := default zeroNote (noteMap g !! i) in
  let note :=
    if negb (name =? "")%string
    then mkNote (Note_id note) name (Note_content note) else note in
  let note :=
    if negb (content =? "")%string
    then mkNote (Note_id note) (Note_name note) content else note in
  (note, mkGlobals (id g) (<[i := note]> (noteMap g))).

Definition Delete (i : Id) (g : Globals) : Note * Globals :=
  let note := default zeroNote (noteMap g !! i) in
  (note, mkGlobals (id g) (delete i (noteMap g))).
End InMemoryStorage.

#[export] Instance InMemoryStorage_Storage : Storage Globals := {|
  ReadAll := InMemoryStorage.ReadAll;
  Read := InMemoryStorage.Read;
  Create := InMemoryStorage.Create;
  Update := InMemoryStorage.Update;
  Delete := InMemoryStorage.Delete
|}.

(* ================================================================== *)
(** ** Commands (use cases) *)

Record ReadAllMessage := mkReadAllMessage {}.
Record ReadAllResult := mkReadAllResult { ReadAllResult_notes : list Note }.

Record ReadMessage := mkReadMessage { ReadMessage_id : Id }.
Record ReadResult := mkReadResult { ReadResult_note : Note }.

Record CreateMessage := mkCreateMessage {
  CreateMessage_name : Name;
  CreateMessage_content : Content
}.
Record CreateResult := mkCreateResult { CreateResult_note : Note }.

Record UpdateMessage := mkUpdateMessage {
  UpdateMessage_id : Id;
  UpdateMessage_name : Name;
  UpdateMessage_content : Content
}.
Record UpdateResult := mkUpdateResult { UpdateResult_note : Note }.

Record DeleteMessage := mkDeleteMessage { DeleteMessage_id : Id }.
Record DeleteResult := mkDeleteResult { DeleteResult_note : Note }.

Module ReadAllCommand.
Definition execute {S} `{!Storage S} (i : ReadAllMessage) (s : S)
  : ReadAllResult * S :=
  let notes := ReadAll s in
  (mkReadAllResult notes, s).
End ReadAllCommand.

Module ReadCommand.
Definition execute {S} `{!Storage S} (i : ReadMessage) (s : S)
  : ReadResult * S :=
  let note := Read (ReadMessage_id i) s in
  (mkReadResult note, s).
End ReadCommand.

Module CreateCommand.
Definition execute {S} `{!Storage S} (i : CreateMessage) (s : S)
  : CreateResult * S :=
  let '(note, s) := Create (CreateMessage_name i) (CreateMessage_content i) s in
  (mkCreateResult note, s).
End CreateCommand.

Module UpdateCommand.
Definition execute {S} `{!Storage S} (i : UpdateMessage) (s : S)
  : UpdateResult * S :=
  let '(note, s) :=
    Update (UpdateMessage_id i) (UpdateMessage_name i)
      (UpdateMessage_content i) s in
  (mkUpdateResult note, s).
End UpdateCommand.

Module DeleteCommand.
Definition execute {S} `{!Storage S} (i : DeleteMessage) (s : S)
  : DeleteResult * S :=
  let '(note, s) := Delete (DeleteMessage_id i) s in
  (mkDeleteResult note, s).
End DeleteCommand.

(* ================================================================== *)
(** ** Input parsers *)

(** What the program reads of an [*http.Request]: the method and the
    parsed query of the URL, in order. *)
Record Request := mkRequest {
  Method : string;
  Query : list (string * string)
}.

(** [r.URL.Query().Get(key)]: the first value of [key], or the empty
    string. *)
Fixpoint Get (q : list (string * string)) (key : string) : string :=
  match q with
  | [] => ""
  | (k, v) :: q' => if (k =? key)%string then v else Get q' key
  end.

Module ReadAllParser.
Definition fromHttp (r : Request) : ReadAllMessage := mkReadAllMessage.
Definition fromRepl (s : list string) : ReadAllMessage := mkReadAllMessage.
End ReadAllParser.

Module ReadParser.
Definition fromHttp (r : Request) : ReadMessage := mkReadMessage 0.

Definition fromRepl (s : list string) : Exec ReadMessage :=
  id <~ index s 1 ;;
  let '(number, err) := strconv.Atoi id in
  match err with
  | Some e => Panic (PanicError e)
  | None => Ret (mkReadMessage number)
  end.
End ReadParser.

Module CreateParser.
Definition fromHttp (r : Request) : CreateMessage := mkCreateMessage "" "".

Definition fromRepl (s : list string) : Exec CreateMessage :=
  name <~ index s 1 ;;
  content <~ index s 2 ;;
  Ret (mkCreateMessage name content).
End CreateParser.

Module UpdateParser.
Definition fromHttp (r : Request) : UpdateMessage := mkUpdateMessage 0 "" "".

Definition fromRepl (s : list string) : Exec UpdateMessage :=
  id <~ index s 1 ;;
  let '(number, err) := strconv.Atoi id in
  match err with
  | Some e => Panic (PanicError e)
  | None =>
      name <~ index s 2 ;;
      content <~ index s 3 ;;
      Ret (mkUpdateMessage number name content)
  end.
End UpdateParser.

Module DeleteParser.
Definition fromHttp (r : Request) : DeleteMessage := mkDeleteMessage 0.
Definition fromRepl (s : list string) : DeleteMessage := mkDeleteMessage 0.
End DeleteParser.

(* ================================================================== *)
(** ** Presenters *)

(** The results as the presenters receive them ([any]): structs whose
    fields all have lower-case names. *)
Definition Note_value (n : Note) : reflect.Value :=
  reflect.Struct [("id", reflect.Int (Note_id n));
                  ("name", reflect.Str (Note_name n));
                  ("content", reflect.Str (Note_content n))].

Definition ReadAllResult_value (r : ReadAllResult) : reflect.Value :=
  reflect.Struct
    [("notes", reflect.Slice (Note_value <$> ReadAllResult_notes r))].

Definition ReadResult_value (r : ReadResult) : reflect.Value :=
  reflect.Struct [("note", Note_value (ReadResult_note r))].

Definition CreateResult_value (r : CreateResult) : reflect.Value :=
  reflect.Struct [("note", Note_value (CreateResult_note r))].

Definition UpdateResult_value (r : UpdateResult) : reflect.Value :=
  reflect.Struct [("note", Note_value (UpdateResult_note r))].

Definition DeleteResult_value (r : DeleteResult) : reflect.Value :=
  reflect.Struct [("note", Note_value (DeleteResult_note r))].

Module JsonPresenter.
(** What [present] writes to the response. *)
Definition present (quote : string → string) (o : reflect.Value) : string :=
  json.Encode quote o.
End JsonPresenter.

Module ReplPresenter.
(** What [present] writes to standard output. *)
Definition present (o : reflect.Value) : string := fmt.Println o.
End ReplPresenter.

(* ================================================================== *)
(** ** Applications *)

Definition mpanic {S A} (p : PanicValue) : M S A := λ s, Panicked p s.

Module ReplApplication.
Section app.
Context {S : Type} `{!Storage S}.

(** Each handler returns what the presenter prints. *)
Definition handleReadAll (input : list string) : M S string :=
  let message := ReadAllParser.fromRepl input in
  result <- liftS (ReadAllCommand.execute message) ;;
  mret (ReplPresenter.present (ReadAllResult_value result)).

Definition handleRead (input : list string) : M S string :=
  message <- liftE (ReadParser.fromRepl input) ;;
  result <- liftS (ReadCommand.execute message) ;;
  mret (ReplPresenter.present (ReadResult_value result)).

Definition handleCreate (input : list string) : M S string :=
  message <- liftE (CreateParser.fromRepl input) ;;
  result <- liftS (CreateCommand.execute message) ;;
  mret (ReplPresenter.present (CreateResult_value result)).

Definition handleUpdate (input : list string) : M S string :=
  message <- liftE (UpdateParser.fromRepl input) ;;
  result <- liftS (UpdateCommand.execute message) ;;
  mret (ReplPresenter.present (UpdateResult_value result)).

Definition handleDelete (input : list string) : M S string :=
  let message := DeleteParser.fromRepl input in
  result <- liftS (DeleteCommand.execute message) ;;
  mret (ReplPresenter.present (DeleteResult_value result)).

Definition shouldExit (input : string) : bool :=
  (strings.TrimSpace input =? "exit")%string.

(** The tokens of a line: split at [";"], each one trimmed. *)
Definition tokens (input : string) : list string :=
  strings.TrimSpace <$> strings.Split input ";".

(** [switch args[0]]. *)
Definition dispatch (args : list string) : M S string :=
  a0 <- liftE (index args 0) ;;
  if (a0 =? "CREATE")%string then handleCreate args
  else if (a0 =? "READ")%string then handleRead args
  else if (a0 =? "READALL")%string then handleReadAll args
  else if (a0 =? "UPDATE")%string then handleUpdate args
  else if (a0 =? "DELETE")%string then handleDelete args
  else mpanic (PanicString "Unknown command").

(** One turn of the loop on a line that was read without error:
    [None] is [break], [Some out] what the turn printed. *)
Definition turn (input : string) : M S (option string) :=
  if shouldExit input then mret None
  else
    out <- dispatch (tokens input) ;;
    mret (Some out).

(** The loop.  [stdin] holds the lines that [ReadString] returns
    without error, in order; the read after the last one fails (end
    of input).  The result is what was written to standard output
    and how the loop ended: [Done] when it was left by [break], so
    that [run] returns, [Panicked] when the process died. *)
Fixpoint run (stdin : list string) (s : S)
  : list string * Outcome S unit :=
  match stdin with
  | [] => (["REPL > "], Panicked PanicReadError s)
  | input :: rest =>
      match turn input s with
      | Done None s' => (["REPL > "], Done () s')
      | Done (Some out) s' =>
          let '(outs, r) := run rest s' in
          ("REPL > " :: out :: outs, r)
      | Panicked p s' => (["REPL > "], Panicked p s')
      end
  end.
End app.
End ReplApplication.

Module http.
(** What the client of one request gets: the body the handler wrote,
    or nothing when the handler panicked. *)
Inductive Response :=
| Body (body : string)
| Aborted (p : PanicValue).

(** [http.ListenAndServe] on a list of requests, one after the other.
    As [net/http] documents, a panic of the handler is confined to its
    request: the server recovers it, logs it and closes the connection,
    and goes on serving. *)
Fixpoint Serve {S} (handler : Request → M S string)
  (requests : list Request) (s : S) : list Response * S :=
  match requests with
  | [] => ([], s)
  | r :: rest =>
      match handler r s with
      | Done body s' =>
          let '(resps, s'') := Serve handler rest s' in
          (Body body :: resps, s'')
      | Panicked p s' =>
          let '(resps, s'') := Serve handler rest s' in
          (Aborted p :: resps, s'')
      end
  end.
End http.

Module HttpApplication.
Section app.
Context {S : Type} `{!Storage S}.
(** The string-literal encoder of [encoding/json]. *)
Variable quote : string → string.

Definition handleGet (r : Request) : M S string :=
  let id := Get (Query r) "id" in
  if (id =? "")%string then
    let message := ReadAllParser.fromHttp r in
    result <- liftS (ReadAllCommand.execute message) ;;
    mret (JsonPresenter.present quote (ReadAllResult_value result))
  else
    let '(_, err) := strconv.Atoi id in
    match err with
    | Some e => mpanic (PanicError e)
    | None =>
        let message := ReadParser.fromHttp r in
        result <- liftS (ReadCommand.execute message) ;;
        mret (JsonPresenter.present quote (ReadResult_value result))
    end.

Definition handlePost (r : Request) : M S string :=
  let message := CreateParser.fromHttp r in
  result <- liftS (CreateCommand.execute message) ;;
  mret (JsonPresenter.present quote (CreateResult_value result)).

Definition handlePut (r : Request) : M S string :=
  let message := UpdateParser.fromHttp r in
  result <- liftS (UpdateCommand.execute message) ;;
  mret (JsonPresenter.present quote (UpdateResult_value result)).

Definition handleDelete (r : Request) : M S string :=
  let message := DeleteParser.fromHttp r in
  result <- liftS (DeleteCommand.execute message) ;;
  mret (JsonPresenter.present quote (DeleteResult_value result)).

(** The function registered for the route ["/notes/"]. *)
Definition handler (r : Request) : M S string :=
  if (Method r =? "GET")%string then handleGet r
  else if (Method r =? "POST")%string then handlePost r
  else if (Method r =? "PUT")%string then handlePut r
  else if (Method r =? "DELETE")%string then handleDelete r
  else mpanic (PanicString "Uknown method").

(** [run] on the requests that reach the route. *)
Definition run (requests : list Request) (s : S)
  : list http.Response * S :=
  http.Serve handler requests s.
End app.
End HttpApplication.

(** A line as [ReadString] returns it: with the newline that ends it. *)
Definition line (s : string) : string := s +:+ String "010" EmptyString.

(** [main]: the REPL over the in-memory storage, from the initial values
    of the package-level variables. *)
Definition main (stdin : list string) : list string * Outcome Globals unit :=
  ReplApplication.run stdin initial.

(* ================================================================== *)
(** ** Sequences of storage calls *)

Inductive Op :=
| OpReadAll
| OpRead (i : Id)
| OpCreate (name : Name) (content : Content)
| OpUpdate (i : Id) (name : Name) (content : Content)
| OpDelete (i : Id).

(** The calls of a sequence run in order on the in-memory storage: the
    notes that its [Create]s returned, in order, and the final state. *)
Fixpoint exec (ops : list Op) (g : Globals) : list Note * Globals :=
  match ops with
  | [] => ([], g)
  | OpReadAll :: ops' => exec ops' g
  | OpRead i :: ops' => exec ops' g
  | OpCreate name content :: ops' =>
      let '(note, g') := InMemoryStorage.Create name content g in
      let '(notes, g'') := exec ops' g' in
      (note :: notes, g'')
  | OpUpdate i name content :: ops' =>
      exec ops' (InMemoryStorage.Update i name content g).2
  | OpDelete i :: ops' =>
      exec ops' (InMemoryStorage.Delete i g).2
  end.

(** The arguments of the [Create]s of a sequence, in order. *)
Fixpoint inputs (ops : list Op) : list (Name * Content) :=
  match ops with
  | [] => []
  | OpCreate name content :: ops' => (name, content) :: inputs ops'
  | _ :: ops' => inputs ops'
  end.

(** One [Create] for each pair of a name and a content. *)
Definition creates (l : list (Name * Content)) : list Op :=
  (λ p, OpCreate p.1 p.2) <$> l.

(** The note that the [i]-th [Create] after the counter value [c]
    returns. *)
Definition created_note (c : Id) (i : Z) (p : Name * Content) : Note :=
  mkNote (GoInt.wrap (c + i)) p.1 p.2.

(** The map entries of notes that are stored under their own ids. *)
Definition entries (notes : list Note) : list (Id * Note) :=
  (λ n, (Note_id n, n)) <$> notes.

(** Every key of the map is the id of the note stored under it. *)
Definition keys_are_ids (g : Globals) : Prop :=
  ∀ k n, noteMap g !! k = Some n → Note_id n = k.

(** A call other than [Update]. *)
Definition notUpdate (o : Op) : bool :=
  match o with
  | OpUpdate _ _ _ => false
  | _ => true
  end.

(** The counter is a valid [int] and no key of the map is above it: the
    ids still to be allocated are free. *)
Definition keys_below_counter (g : Globals) : Prop :=
  GoInt.in_range (id g) ∧ ∀ k n, noteMap g !! k = Some n → k ≤ id g.

(** A byte that is ASCII and not white space. *)
Definition plainByte (c : ascii) : bool :=
  (strconv.byte c <? 128) && negb (strings.asciiSpace (strconv.byte c)).

(** A token that a line can carry as it is: no [";"] in it, and, unless
    it is empty, a first and a last byte that trimming leaves alone. *)
Definition cleanToken (t : string) : bool :=
  let l := list_ascii_of_string t in
  forallb (λ b, negb (Ascii.eqb b ";")) l
  && match l with
     | [] => true
     | c :: _ => plainByte c && plainByte (List.last l c)
     end.

(** A token without a line feed in it. *)
Definition noNewline (t : string) : bool :=
  forallb (λ b, negb (Ascii.eqb b "010")) (list_ascii_of_string t).

(** A string that [ReadString('\n')] can return without an error: its
    first line feed is its last byte. *)
Fixpoint isLine (s : string) : bool :=
  match s with
  | EmptyString => false
  | String c r => if Ascii.eqb c "010" then (r =? "")%string else isLine r
  end.

(* ================================================================== *)
(** ** The application modes *)

(** [AppMode] and its two constants. *)
Abbreviation AppMode := string (only parsing).
Definition HTTP : AppMode := "HTTP".
Definition REPL : AppMode := "REPL".

(** The two implementations of [Application] that [newApplication]
    builds, each over the in-memory storage. *)
Inductive Application := ReplApp | HttpApp.

Definition newApplication (mode : AppMode) : Exec Application :=
  if (mode =? REPL)%string then Ret ReplApp
  else if (mode =? HTTP)%string then Ret HttpApp
  else Panic (PanicString "Unknown application mode").

(* ================================================================== *)
(** * Lemmas and theorems *)

(** ** Integer wrap-around *)

Section GoInt_facts.
Import GoInt.

Lemma modulus_eq : modulus = 18446744073709551616.
Proof. reflexivity. Qed.

Lemma minInt_eq : minInt = -9223372036854775808.
Proof. reflexivity. Qed.

Lemma maxInt_eq : maxInt = 9223372036854775807.
Proof. reflexivity. Qed.

Lemma wrap_in_range z : in_range (wrap z).
Proof.
  unfold in_range, wrap. rewrite maxInt_eq, minInt_eq, modulus_eq.
  pose proof (Z.mod_pos_bound (z - -9223372036854775808) 18446744073709551616).
  lia.
Qed.

Lemma wrap_id z : in_range z → wrap z = z.
Proof.
  unfold in_range, wrap. rewrite maxInt_eq, minInt_eq, modulus_eq.
  intros Hz. rewrite Z.mod_small; lia.
Qed.

(** Two numbers with the same wrapped value differ by a multiple of
    the modulus. *)
Lemma wrap_eq_inv a b :
  wrap a = wrap b → ∃ q, a - b = q * modulus.
Proof.
  unfold wrap. rewrite minInt_eq, modulus_eq. intros H.
  pose proof (Z.div_mod (a - -9223372036854775808) 18446744073709551616).
  pose proof (Z.div_mod (b - -9223372036854775808) 18446744073709551616).
  exists ((a - -9223372036854775808) `div` 18446744073709551616
          - (b - -9223372036854775808) `div` 18446744073709551616).
  lia.
Qed.

Lemma wrap_inj_near a b :
  - modulus < a - b < modulus → wrap a = wrap b → a = b.
Proof.
  intros Hab [q Hq]%wrap_eq_inv. rewrite modulus_eq in *.
  assert (q = 0) by lia. lia.
Qed.

Lemma wrap_add_wrap a b : wrap (wrap a + b) = wrap (a + b).
Proof.
  unfold wrap. rewrite minInt_eq, modulus_eq.
  f_equal.
  replace ((a - -9223372036854775808) `mod` 18446744073709551616
           + -9223372036854775808 + b - -9223372036854775808)
    with ((a - -9223372036854775808) `mod` 18446744073709551616 + b) by lia.
  replace (a + b - -9223372036854775808)
    with ((a - -9223372036854775808) + b) by lia.
  rewrite Zplus_mod_idemp_l. reflexivity.
Qed.

End GoInt_facts.

(** ** The storage methods, one by one *)

Section Storage_facts.
Import InMemoryStorage.

Lemma Read_lookup i g : Read i g = default zeroNote (noteMap g !! i).
Proof. reflexivity. Qed.

Lemma Create_eq name content g :
  Create name content g =
    (mkNote (GoInt.wrap (id g + 1)) name content,
     mkGlobals (GoInt.wrap (id g + 1))
       (<[GoInt.wrap (id g + 1) := mkNote (GoInt.wrap (id g + 1)) name content]>
          (noteMap g))).
Proof. reflexivity. Qed.

(** The fields of the note that [Update] stores, from the note it
    fetched. *)
Lemma Update_eq i name content g :
  Update i name content g =
    (let old := default zeroNote (noteMap g !! i) in
     let new :=
       mkNote (Note_id old)
         (if decide (name = "") then Note_name old else name)
         (if decide (content = "") then Note_content old else content) in
     (new, mkGlobals (id g) (<[i := new]> (noteMap g)))).
Proof.
  unfold Update. cbv zeta.
  destruct (noteMap g !! i) as [[oi on oc]|]; simpl;
    destruct (String.eqb_spec name ""), (String.eqb_spec content "");
    simpl; repeat case_decide; subst; try congruence; reflexivity.
Qed.

Lemma Delete_eq i g :
  Delete i g =
    (default zeroNote (noteMap g !! i),
     mkGlobals (id g) (delete i (noteMap g))).
Proof. reflexivity. Qed.

Lemma Globals_eta g : mkGlobals (id g) (noteMap g) = g.
Proof. by destruct g. Qed.
End Storage_facts.

(** C2.  For an id present in storage, [Update] keeps the id field,
    overwrites the name exactly when the incoming name is not empty and
    the content exactly when the incoming content is not empty, stores the
    result under the same key and returns it; with an empty name only the
    content changes, and with both empty the note comes back unchanged and
    the storage is what it was. *)
Theorem Update_overwrites_nonempty_fields
  (g : Globals) (i : Id) (n : Note) (name : Name) (content : Content) :
  noteMap g !! i = Some n →
  let '(n', g') := InMemoryStorage.Update i name content g in
  Note_id n' = Note_id n
  ∧ Note_name n' = (if decide (name = "") then Note_name n else name)
  ∧ Note_content n' = (if decide (content = "") then Note_content n else content)
  ∧ g' = mkGlobals (id g) (<[i := n']> (noteMap g))
  ∧ InMemoryStorage.Read i g' = n'
  ∧ (name = "" → content ≠ "" →
     n' = mkNote (Note_id n) (Note_name n) content)
  ∧ (name = "" → content = "" → n' = n ∧ g' = g).
Proof.
  intros Hn. rewrite Update_eq, Hn. simpl.
  split_and!; try reflexivity.
  - by rewrite Read_lookup; simpl; rewrite lookup_insert_eq.
  - intros -> Hc. by rewrite decide_True, decide_False.
  - intros -> ->. destruct n as [ni nn nc]; simpl.
    split; [reflexivity|].
    rewrite insert_id by done. apply Globals_eta.
Qed.

Lemma Update_overwrites_nonempty_fields_witness :
  let g := mkGlobals 1 {[ 1 := mkNote 1 "A" "B" ]} in
  noteMap g !! 1 = Some (mkNote 1 "A" "B")
  ∧ (InMemoryStorage.Update 1 "" "C" g).1 = mkNote 1 "A" "C"
  ∧ (InMemoryStorage.Update 1 "" "" g).1 = mkNote 1 "A" "B".
Proof.
  intros g.
  assert (Hg : noteMap g !! 1 = Some (mkNote 1 "A" "B"))
    by apply lookup_singleton_eq.
  split; [exact Hg|]. split.
  - pose proof (Update_overwrites_nonempty_fields g 1 _ "" "C" Hg) as H.
    destruct H as (_ & _ & _ & _ & _ & H & _). apply H; done.
  - pose proof (Update_overwrites_nonempty_fields g 1 _ "" "" Hg) as H.
    destruct H as (_ & _ & _ & _ & _ & _ & H). apply H; done.
Defined.

(** C3.  For an id absent from storage, [Update] creates an entry under
    that id and returns it: the entry has the incoming name and content
    where they are not empty and the zero value everywhere else (its id
    field included); the counter and the other entries are untouched. *)
Theorem Update_absent_creates_entry
  (g : Globals) (i : Id) (name : Name) (content : Content) :
  noteMap g !! i = None →
  let '(n', g') := InMemoryStorage.Update i name content g in
  noteMap g' !! i = Some n'
  ∧ InMemoryStorage.Read i g' = n'
  ∧ Note_name n' = (if decide (name = "") then "" else name)
  ∧ Note_content n' = (if decide (content = "") then "" else content)
  ∧ Note_id n' = 0
  ∧ n' = mkNote 0 name content
  ∧ id g' = id g
  ∧ (∀ j, j ≠ i → noteMap g' !! j = noteMap g !! j).
Proof.
  intros Hn. rewrite Update_eq, Hn. simpl.
  split_and!; try reflexivity.
  - apply lookup_insert_eq.
  - by rewrite Read_lookup; simpl; rewrite lookup_insert_eq.
  - repeat case_decide; subst; reflexivity.
  - intros j Hj. by apply lookup_insert_ne.
Qed.

Lemma Update_absent_creates_entry_witness :
  noteMap initial !! 7 = None
  ∧ noteMap (InMemoryStorage.Update 7 "" "C" initial).2 !! 7
    = Some (mkNote 0 "" "C").
Proof.
  assert (H0 : noteMap initial !! 7 = None) by apply lookup_empty.
  split; [exact H0|].
  pose proof (Update_absent_creates_entry initial 7 "" "C" H0) as H.
  destruct H as (H1 & _). exact H1.
Defined.

(** C4.  [Read] is a total function (no error is signalled): for an id
    absent from storage it returns the zero-valued note.  [Delete] returns
    what [Read] returned before it, that is the stored note or the
    zero-valued note for an absent id, and after [Delete] the id reads as
    the zero-valued note, which is not the deleted note unless that was
    zero-valued itself. *)
Theorem Read_absent_and_Delete (g : Globals) (i : Id) :
  (noteMap g !! i = None → InMemoryStorage.Read i g = zeroNote)
  ∧ (let '(d, g') := InMemoryStorage.Delete i g in
     InMemoryStorage.Read i g' = zeroNote
     ∧ noteMap g' !! i = None
     ∧ d = InMemoryStorage.Read i g
     ∧ (∀ n, noteMap g !! i = Some n → d = n)
     ∧ (noteMap g !! i = None → d = zeroNote)
     ∧ (d ≠ zeroNote → InMemoryStorage.Read i g' ≠ d)).
Proof.
  split.
  - intros H. by rewrite Read_lookup, H.
  - rewrite Delete_eq. rewrite !Read_lookup. simpl.
    rewrite lookup_delete_eq. simpl. split_and!; try reflexivity.
    + intros n ->. reflexivity.
    + intros ->. reflexivity.
    + intros H. congruence.
Qed.

Lemma Read_absent_and_Delete_witness :
  let g := mkGlobals 1 {[ 1 := mkNote 1 "A" "B" ]} in
  InMemoryStorage.Read 2 g = zeroNote
  ∧ (InMemoryStorage.Delete 1 g).1 = mkNote 1 "A" "B"
  ∧ InMemoryStorage.Read 1 (InMemoryStorage.Delete 1 g).2 = zeroNote.
Proof.
  intros g.
  assert (H1 : noteMap g !! 1 = Some (mkNote 1 "A" "B"))
    by apply lookup_singleton_eq.
  assert (H2 : noteMap g !! 2 = None) by (by apply lookup_singleton_ne).
  split; [exact (proj1 (Read_absent_and_Delete g 2) H2)|].
  pose proof (proj2 (Read_absent_and_Delete g 1)) as H.
  rewrite Delete_eq.
  destruct H as (Hr & _ & _ & Hd & _). split; [by apply Hd | exact Hr].
Defined.

(** C10.  [Update] with an absent id above the counter stores an entry
    under that key, leaves the counter where it was and gives the stored
    note the id field 0; when the key is the next one the counter will
    reach, the following [Create] allocates it and replaces the entry.
    From the initial state [Update(1, "x", "y")] then [Create("a", "b")]
    is such a sequence, and [keys_are_ids] holds before the [Update] and
    fails after it. *)
Theorem Update_then_Create_overwrites :
  (∀ g i name content,
     id g < i → noteMap g !! i = None →
     let '(n, g') := InMemoryStorage.Update i name content g in
     id g' = id g ∧ noteMap g' !! i = Some n ∧ Note_id n = 0)
  ∧ (∀ g name content name' content',
       GoInt.in_range (id g) → id g < GoInt.maxInt →
       noteMap g !! (id g + 1) = None →
       let '(n1, g1) := InMemoryStorage.Update (id g + 1) name content g in
       let '(n2, g2) := InMemoryStorage.Create name' content' g1 in
       noteMap g1 !! (id g + 1) = Some (mkNote 0 name content)
       ∧ Note_id n2 = id g + 1
       ∧ noteMap g2 !! (id g + 1) = Some (mkNote (id g + 1) name' content')
       ∧ noteMap g2 = <[id g + 1 := n2]> (noteMap g))
  ∧ (let g1 := (InMemoryStorage.Update 1 "x" "y" initial).2 in
     let '(n2, g2) := InMemoryStorage.Create "a" "b" g1 in
     keys_are_ids initial
     ∧ noteMap g1 !! 1 = Some (mkNote 0 "x" "y")
     ∧ ¬ keys_are_ids g1
     ∧ n2 = mkNote 1 "a" "b"
     ∧ noteMap g2 = {[ 1 := mkNote 1 "a" "b" ]})
  ∧ ¬ (∀ g i name content,
         keys_are_ids g →
         keys_are_ids (InMemoryStorage.Update i name content g).2).
Proof.
  assert (Hfirst : ∀ g i name content,
     noteMap g !! i = None →
     InMemoryStorage.Update i name content g =
       (mkNote 0 name content,
        mkGlobals (id g) (<[i := mkNote 0 name content]> (noteMap g)))).
  { intros g i name content Hi. rewrite Update_eq, Hi. simpl.
    repeat case_decide; subst; reflexivity. }
  assert (Hbroken : ¬ keys_are_ids (InMemoryStorage.Update 1 "x" "y" initial).2).
  { rewrite Hfirst by apply lookup_empty. intros H.
    specialize (H 1 (mkNote 0 "x" "y")). simpl in H.
    rewrite lookup_insert_eq in H. specialize (H eq_refl). discriminate. }
  split_and!.
  - intros g i name content _ Hi. rewrite Hfirst by done. simpl.
    split_and!; [reflexivity | apply lookup_insert_eq | reflexivity].
  - intros g name content name' content' Hr Hlt Hi.
    rewrite Hfirst by done. rewrite Create_eq. simpl.
    assert (Hw : GoInt.wrap (id g + 1) = id g + 1).
    { apply wrap_id. unfold GoInt.in_range in *. lia. }
    rewrite Hw. split_and!.
    + apply lookup_insert_eq.
    + reflexivity.
    + apply lookup_insert_eq.
    + apply insert_insert_eq.
  - cbv zeta. rewrite Hfirst in Hbroken |- * by apply lookup_empty.
    rewrite Create_eq. simpl. split_and!.
    + intros k n H. simpl in H. by rewrite lookup_empty in H.
    + apply lookup_insert_eq.
    + exact Hbroken.
    + reflexivity.
    + change (GoInt.wrap (0 + 1)) with 1. rewrite insert_insert_eq.
      apply insert_empty.
  - intros H. apply Hbroken, H.
    intros k n Hk. simpl in Hk. by rewrite lookup_empty in Hk.
Qed.

Lemma Update_then_Create_overwrites_witness :
  0 < 5 ∧ noteMap initial !! 5 = None
  ∧ noteMap (InMemoryStorage.Update 5 "x" "" initial).2 !! 5
    = Some (InMemoryStorage.Update 5 "x" "" initial).1
  ∧ Note_id (InMemoryStorage.Update 5 "x" "" initial).1 = 0.
Proof.
  assert (H0 : noteMap initial !! 5 = None) by apply lookup_empty.
  split; [lia|]. split; [exact H0|].
  pose proof (proj1 Update_then_Create_overwrites initial 5 "x" ""
                ltac:(simpl; lia) H0) as H.
  destruct H as (_ & H1 & H2). split; [exact H1 | exact H2].
Defined.

(** ** Sequences of storage calls *)

Section exec_facts.
Import InMemoryStorage.

Lemma exec_app ops1 ops2 g :
  exec (ops1 ++ ops2) g =
    ((exec ops1 g).1 ++ (exec ops2 (exec ops1 g).2).1,
     (exec ops2 (exec ops1 g).2).2).
Proof.
  revert g. induction ops1 as [|o ops1 IH]; intros g; simpl.
  - by destruct (exec ops2 g).
  - destruct o; simpl; try apply IH.
    rewrite IH. destruct (exec ops1 _) as [n1 g1]. simpl.
    by destruct (exec ops2 g1).
Qed.

Lemma inputs_app ops1 ops2 : inputs (ops1 ++ ops2) = inputs ops1 ++ inputs ops2.
Proof.
  induction ops1 as [|o ops1 IH]; simpl; [done|].
  destruct o; simpl; by rewrite ?IH.
Qed.

Lemma inputs_creates l : inputs (creates l) = l.
Proof.
  induction l as [|[name content] l IH]; simpl; [done|]. by rewrite IH.
Qed.

Lemma exec_Create name content ops g :
  exec (OpCreate name content :: ops) g =
    ((Create name content g).1 :: (exec ops (Create name content g).2).1,
     (exec ops (Create name content g).2).2).
Proof. simpl. by destruct (exec ops _). Qed.

(** The counter after a sequence: one step for each [Create]. *)
Lemma exec_id ops g :
  GoInt.in_range (id g) →
  id (exec ops g).2 = GoInt.wrap (id g + Z.of_nat (length (inputs ops))).
Proof.
  revert g. induction ops as [|o ops IH]; intros g Hg.
  - simpl. rewrite Z.add_0_r. symmetry. by apply wrap_id.
  - destruct o as [|i|name content|i name content|i];
      try (cbn [exec inputs]; rewrite IH; [reflexivity | exact Hg]).
    rewrite exec_Create. cbn [snd inputs length].
    rewrite IH by (rewrite Create_eq; apply wrap_in_range).
    rewrite Create_eq. cbn [snd id].
    rewrite wrap_add_wrap. f_equal. lia.
Qed.

(** The same without the assumption that the counter is in range. *)
Lemma exec_id_add ops g j :
  GoInt.wrap (id (exec ops g).2 + j)
  = GoInt.wrap (id g + Z.of_nat (length (inputs ops)) + j).
Proof.
  revert g. induction ops as [|o ops IH]; intros g.
  - cbn [exec inputs length snd]. f_equal. lia.
  - destruct o as [|i|name content|i name content|i];
      try (cbn [exec inputs]; rewrite IH; reflexivity).
    rewrite exec_Create. cbn [snd inputs length].
    rewrite IH, Create_eq. cbn [snd id].
    rewrite <- Z.add_assoc, wrap_add_wrap. f_equal. lia.
Qed.

(** The notes that the [Create]s of a sequence return. *)
Lemma exec_created ops g :
  (exec ops g).1 =
    zip_with (created_note (id g))
      (seqZ 1 (Z.of_nat (length (inputs ops)))) (inputs ops).
Proof.
  revert g. induction ops as [|o ops IH]; intros g.
  - reflexivity.
  - destruct o as [|i|name content|i name content|i];
      try (cbn [exec inputs]; rewrite IH; reflexivity).
    rewrite exec_Create. cbn [fst inputs length].
    rewrite seqZ_cons by lia. cbn [zip_with]. f_equal.
    rewrite IH, Create_eq. cbn [snd id].
    replace (Z.pred (Z.of_nat (S (length (inputs ops)))))
      with (Z.of_nat (length (inputs ops))) by lia.
    change (Z.succ 1) with (1 + 1). rewrite <- fmap_add_seqZ.
    rewrite zip_with_fmap_l. apply zip_with_ext; [|done..].
    intros j p. unfold created_note. by rewrite wrap_add_wrap, Z.add_assoc.
Qed.

Lemma exec_created_length ops g :
  length (exec ops g).1 = length (inputs ops).
Proof.
  rewrite exec_created, length_zip_with, length_seqZ. lia.
Qed.

Lemma exec_created_ids ops g :
  Note_id <$> (exec ops g).1 =
    (λ j, GoInt.wrap (id g + j)) <$> seqZ 1 (Z.of_nat (length (inputs ops))).
Proof.
  rewrite exec_created.
  assert (H : ∀ (l : list (Name * Content)) (js : list Z),
             length js = length l →
             Note_id <$> zip_with (created_note (id g)) js l
             = (λ j, GoInt.wrap (id g + j)) <$> js).
  { induction l as [|p l IH]; intros [|j js] Hl; simpl in *; try done.
    f_equal. apply IH. lia. }
  apply H. rewrite length_seqZ. lia.
Qed.

(** Fewer than [2^64 + 1] [Create]s never return the same id twice. *)
Lemma exec_created_NoDup ops g :
  Z.of_nat (length (inputs ops)) ≤ GoInt.modulus →
  NoDup (Note_id <$> (exec ops g).1).
Proof.
  intros Hn. rewrite exec_created_ids.
  apply NoDup_fmap_2_strong; [|apply NoDup_seqZ].
  intros a b [Ha1 Ha2]%elem_of_seqZ [Hb1 Hb2]%elem_of_seqZ Hab.
  apply wrap_inj_near in Hab; lia.
Qed.
End exec_facts.

(** ** C1: the ids that [Create] allocates *)

(** After [2^64 + 1] [Create]s the last one got the id of the first. *)
Lemma Create_reuses_id_after_full_wrap (l : list (Name * Content)) :
  Z.of_nat (length l) = GoInt.modulus + 1 →
  ¬ NoDup (Note_id <$> (exec (creates l) initial).1).
Proof.
  intros Hlen. rewrite exec_created_ids, inputs_creates, Hlen.
  intros Hnd. rewrite NoDup_alt in Hnd.
  assert (Hm : 0 ≤ GoInt.modulus) by (rewrite modulus_eq; discriminate).
  specialize (Hnd 0%nat (Z.to_nat GoInt.modulus) 1).
  rewrite !list_lookup_fmap in Hnd.
  rewrite !lookup_seqZ_lt in Hnd by (rewrite ?Z2Nat.id by done; lia).
  rewrite Z2Nat.id in Hnd by done.
  specialize (Hnd eq_refl eq_refl).
  apply (f_equal Z.of_nat) in Hnd. rewrite Z2Nat.id in Hnd by done.
  rewrite modulus_eq in Hnd. discriminate Hnd.
Qed.

(** C1 as stated fails where the counter holds the largest [int]: there
    [Create] allocates the smallest [int], which is not one greater, and
    two [Create]s in a row get ids that do not differ by 1.  And once the
    counter has gone all the way around, after [2^64 + 1] [Create]s, an id
    has been assigned twice. *)
Lemma Create_wraps_at_maxInt :
  (let g := mkGlobals GoInt.maxInt ∅ in
   Note_id (InMemoryStorage.Create "A" "B" g).1 = GoInt.minInt
   ∧ Note_id (InMemoryStorage.Create "A" "B" g).1 ≠ id g + 1)
  ∧ (Note_id <$> (exec [OpCreate "A" "B"; OpCreate "A" "B"]
                    (mkGlobals (GoInt.maxInt - 1) ∅)).1
     = [GoInt.maxInt; GoInt.minInt]
     ∧ GoInt.minInt - GoInt.maxInt ≠ 1)
  ∧ ¬ NoDup (Note_id <$>
               (exec (creates (replicate (Z.to_nat (GoInt.modulus + 1))
                                 ("A", "B"))) initial).1).
Proof.
  split_and!.
  - cbv zeta. rewrite Create_eq. cbn [fst id Note_id].
    split; [reflexivity | intros H; discriminate H].
  - rewrite exec_created_ids. reflexivity.
  - intros H. discriminate H.
  - apply Create_reuses_id_after_full_wrap.
    rewrite length_replicate, Z2Nat.id; [reflexivity|].
    rewrite modulus_eq. discriminate.
Qed.

(** That counter value is the one the program reaches from its initial
    state by [maxInt] calls of [Create]. *)
Lemma counter_reaches_maxInt :
  id (exec (creates (replicate (Z.to_nat GoInt.maxInt) ("A", "B"))) initial).2
  = GoInt.maxInt.
Proof.
  rewrite exec_id by (split; discriminate).
  rewrite inputs_creates, length_replicate, Z2Nat.id by discriminate.
  reflexivity.
Qed.

(** C1, amended.  While the counter is below the largest [int], [Create]
    allocates the id one greater than the counter, makes it the counter
    and stores the new note under it; two [Create]s with no [Create]
    between them get ids that differ by exactly 1; and in any sequence of
    storage calls with at most [2^64] [Create]s, whatever it deletes or
    updates in between, no two [Create]s return the same id. *)
Theorem Create_allocates_next_id :
  (∀ g name content,
     GoInt.in_range (id g) → id g < GoInt.maxInt →
     InMemoryStorage.Create name content g =
       (mkNote (id g + 1) name content,
        mkGlobals (id g + 1)
          (<[id g + 1 := mkNote (id g + 1) name content]> (noteMap g))))
  ∧ (∀ g ops name1 content1 name2 content2,
       GoInt.in_range (id g) → id g < GoInt.maxInt - 1 →
       inputs ops = [] →
       Note_id <$>
         (exec (OpCreate name1 content1 :: ops ++ [OpCreate name2 content2]) g).1
       = [id g + 1; id g + 1 + 1])
  ∧ (∀ g ops,
       Z.of_nat (length (inputs ops)) ≤ GoInt.modulus →
       NoDup (Note_id <$> (exec ops g).1)).
Proof.
  split_and!.
  - intros g name content Hr Hlt. rewrite Create_eq.
    rewrite wrap_id; [reflexivity|].
    unfold GoInt.in_range in *. lia.
  - intros g ops n1 c1 n2 c2 Hr Hlt Hops.
    rewrite exec_created_ids. cbn [inputs]. rewrite inputs_app, Hops.
    cbn [inputs app length].
    change (seqZ 1 (Z.of_nat 2)) with [1; 2].
    change ((λ j, GoInt.wrap (id g + j)) <$> [1; 2])
      with [GoInt.wrap (id g + 1); GoInt.wrap (id g + 2)].
    unfold GoInt.in_range in *. rewrite maxInt_eq, minInt_eq in *.
    rewrite !wrap_id; [f_equal; f_equal; lia | |];
      unfold GoInt.in_range; rewrite maxInt_eq, minInt_eq; lia.
  - intros g ops. apply exec_created_NoDup.
Qed.

Lemma Create_allocates_next_id_witness :
  GoInt.in_range (id initial) ∧ id initial < GoInt.maxInt
  ∧ InMemoryStorage.Create "A" "B" initial =
      (mkNote 1 "A" "B", mkGlobals 1 (<[1 := mkNote 1 "A" "B"]> ∅))
  ∧ Note_id <$>
      (exec (OpCreate "A" "B" :: [OpDelete 1] ++ [OpCreate "C" "D"]) initial).1
    = [1; 2]
  ∧ NoDup (Note_id <$>
             (exec [OpCreate "A" "B"; OpDelete 1; OpCreate "C" "D"] initial).1).
Proof.
  assert (Hr : GoInt.in_range (id initial)) by (split; discriminate).
  assert (H1 : id initial < GoInt.maxInt) by reflexivity.
  assert (H2 : id initial < GoInt.maxInt - 1) by reflexivity.
  destruct Create_allocates_next_id as (Ha & Hb & Hc).
  split_and!.
  - exact Hr.
  - exact H1.
  - exact (Ha initial "A" "B" Hr H1).
  - exact (Hb initial [OpDelete 1] "A" "B" "C" "D" Hr H2 eq_refl).
  - apply Hc. discriminate.
Defined.

(** ** C5: [ReadAll] after [N] [Create]s and one [Delete] *)

Section ReadAll_facts.
Import InMemoryStorage.

Lemma entries_values ns : (entries ns).*2 = ns.
Proof.
  induction ns as [|n ns IH]; [done|].
  unfold entries in *. rewrite !fmap_cons. cbn [snd]. by f_equal.
Qed.

Lemma creates_cons p l : creates (p :: l) = OpCreate p.1 p.2 :: creates l.
Proof. reflexivity. Qed.

Lemma creates_app l1 l2 : creates (l1 ++ l2) = creates l1 ++ creates l2.
Proof. apply fmap_app. Qed.

(** [Create]s whose ids are all free add one entry each, the returned
    note under its id. *)
Lemma exec_creates_fresh l g :
  Z.of_nat (length l) ≤ GoInt.modulus →
  (∀ j, 1 ≤ j ≤ Z.of_nat (length l) →
        noteMap g !! GoInt.wrap (id g + j) = None) →
  map_to_list (noteMap (exec (creates l) g).2)
  ≡ₚ entries (exec (creates l) g).1 ++ map_to_list (noteMap g).
Proof.
  revert g. induction l as [|p l IH]; intros g Hlen Hfresh.
  - reflexivity.
  - rewrite creates_cons, exec_Create. cbn [fst snd].
    cbn [length] in Hlen, Hfresh.
    rewrite IH; clear IH.
    + rewrite Create_eq. cbn [fst snd noteMap]. unfold entries at 2.
      rewrite fmap_cons. cbn [Note_id].
      rewrite map_to_list_insert by (apply Hfresh; lia).
      cbn [app]. symmetry. apply Permutation_middle.
    + lia.
    + intros j Hj. rewrite Create_eq. cbn [snd noteMap id].
      rewrite wrap_add_wrap.
      rewrite lookup_insert_ne.
      * replace (id g + 1 + j) with (id g + (1 + j)) by lia.
        apply Hfresh. lia.
      * intros Heq. apply wrap_inj_near in Heq; lia.
Qed.

(** From a state with an empty map the map holds exactly the created
    notes. *)
Lemma exec_creates_empty l g0 :
  noteMap g0 = ∅ →
  Z.of_nat (length l) ≤ GoInt.modulus →
  map_to_list (noteMap (exec (creates l) g0).2)
  ≡ₚ entries (exec (creates l) g0).1.
Proof.
  intros Hempty Hlen. rewrite exec_creates_fresh; [|done|].
  - by rewrite Hempty, map_to_list_empty, app_nil_r.
  - intros j _. rewrite Hempty. apply lookup_empty.
Qed.

(** A key of that map is the id of one of the created notes. *)
Lemma exec_creates_empty_lookup l g0 k n :
  noteMap g0 = ∅ →
  Z.of_nat (length l) ≤ GoInt.modulus →
  noteMap (exec (creates l) g0).2 !! k = Some n ↔
  n ∈ (exec (creates l) g0).1 ∧ Note_id n = k.
Proof.
  intros Hempty Hlen. rewrite <- elem_of_map_to_list.
  rewrite exec_creates_empty by done.
  unfold entries. rewrite list_elem_of_fmap. split.
  - intros (n' & [= -> ->] & Hin). done.
  - intros [Hin <-]. eauto.
Qed.
End ReadAll_facts.

(** C5.  From a state whose map is empty, such as the initial one, after
    [N] [Create]s and one [Delete] of an id that a [Create] before it
    returned, every result [ReadAll] may produce has exactly [N - 1]
    notes: the created notes, each with the id it was given and the name
    and content it was created with, without the deleted one, in some
    order.  [N] is any number of [Create]s a run of the program can
    perform: the hypothesis [N ≤ 2^64] holds of every run, since one with
    more [Create]s would first hold [2^64 - 1] notes at once, and a Go
    map has no more than [maxInt = 2^63 - 1] entries. *)
Theorem ReadAll_after_creates_and_delete
  (g0 : Globals) (l1 l2 : list (Name * Content)) (k : Id) (notes : NoteList) :
  noteMap g0 = ∅ →
  Z.of_nat (length l1 + length l2) ≤ GoInt.modulus →
  k ∈ Note_id <$> (exec (creates l1) g0).1 →
  let '(created, g) := exec (creates l1 ++ OpDelete k :: creates l2) g0 in
  InMemoryStorage.ReadAllMay g notes →
  length notes = (length l1 + length l2 - 1)%nat
  ∧ created = zip_with (created_note (id g0))
                (seqZ 1 (Z.of_nat (length l1 + length l2))) (l1 ++ l2)
  ∧ NoDup (Note_id <$> created)
  ∧ ∃ d, Note_id d = k ∧ d :: notes ≡ₚ created.
Proof.
  intros Hempty HN Hk.
  pose proof (exec_created (creates l1 ++ OpDelete k :: creates l2) g0)
    as Hcreated.
  pose proof (exec_created_NoDup (creates l1 ++ OpDelete k :: creates l2) g0)
    as Hnodup.
  assert (Hin : inputs (creates l1 ++ OpDelete k :: creates l2) = l1 ++ l2).
  { rewrite inputs_app. cbn [inputs]. by rewrite !inputs_creates. }
  rewrite Hin, length_app in Hcreated, Hnodup.
  specialize (Hnodup HN).
  rewrite exec_app in Hcreated, Hnodup |- *.
  cbn [exec] in Hcreated, Hnodup |- *. cbn [fst snd] in Hcreated, Hnodup.
  rewrite Delete_eq in Hcreated, Hnodup |- *.
  cbn [snd] in Hcreated, Hnodup |- *.
  set (g1 := (exec (creates l1) g0).2) in *.
  set (ns1 := (exec (creates l1) g0).1) in *.
  set (g2 := mkGlobals (id g1) (delete k (noteMap g1))) in *.
  set (ns2 := (exec (creates l2) g2).1) in *.
  intros Hnotes.
  (* the note that is deleted *)
  apply list_elem_of_fmap in Hk as (d & -> & Hd).
  assert (Hl1 : Z.of_nat (length l1) ≤ GoInt.modulus) by lia.
  assert (Hlook : noteMap g1 !! Note_id d = Some d).
  { apply exec_creates_empty_lookup; done. }
  pose proof (map_to_list_delete _ _ _ Hlook) as Hdel.
  pose proof (exec_creates_empty l1 g0 Hempty Hl1) as Hm1. fold g1 ns1 in Hm1.
  rewrite Hm1 in Hdel.
  (* the second run of creates meets free ids only *)
  assert (Hfresh : ∀ j, 1 ≤ j ≤ Z.of_nat (length l2) →
                        noteMap g2 !! GoInt.wrap (id g2 + j) = None).
  { intros j Hj. cbn [g2 noteMap id].
    destruct (delete _ _ !! _) as [n|] eqn:E; [exfalso|done].
    apply lookup_delete_Some in E as [_ E].
    apply exec_creates_empty_lookup in E as [E1 E2]; [|done..].
    assert (Hid : Note_id n ∈ Note_id <$> (exec (creates l1) g0).1)
      by (by apply list_elem_of_fmap_2).
    rewrite exec_created_ids, inputs_creates in Hid.
    apply list_elem_of_fmap in Hid as (j' & Hj' & [Hj1 Hj2]%elem_of_seqZ).
    rewrite E2 in Hj'. unfold g1 in Hj'.
    rewrite exec_id_add, inputs_creates in Hj'.
    apply wrap_inj_near in Hj'; lia. }
  pose proof (exec_creates_fresh l2 g2 ltac:(lia) Hfresh) as Hmap.
  fold ns2 in Hmap. cbn [g2 noteMap] in Hmap.
  (* what ReadAll may return *)
  unfold InMemoryStorage.ReadAllMay, InMemoryStorage.ReadAll in Hnotes.
  rewrite Hmap, fmap_app, entries_values in Hnotes.
  assert (Hperm : d :: notes ≡ₚ ns1 ++ ns2).
  { rewrite Hnotes, Permutation_middle.
    rewrite Permutation_app_comm. apply Permutation_app; [|done].
    rewrite <- (entries_values ns1), <- Hdel. reflexivity. }
  split_and!.
  - apply Permutation_length in Hperm.
    rewrite length_app in Hperm. unfold ns1, ns2 in Hperm.
    rewrite !exec_created_length, !inputs_creates in Hperm.
    cbn [length] in Hperm. lia.
  - exact Hcreated.
  - exact Hnodup.
  - exists d. split; [reflexivity | exact Hperm].
Qed.

Lemma ReadAll_after_creates_and_delete_witness :
  let l1 := [("a", "b"); ("c", "d")] in
  let l2 := [("e", "f")] in
  noteMap initial = ∅
  ∧ Z.of_nat (length l1 + length l2) ≤ GoInt.modulus
  ∧ 2 ∈ Note_id <$> (exec (creates l1) initial).1
  ∧ length (InMemoryStorage.ReadAll
              (exec (creates l1 ++ OpDelete 2 :: creates l2) initial).2)
    = 2%nat.
Proof.
  intros l1 l2.
  assert (H1 : Z.of_nat (length l1 + length l2) ≤ GoInt.modulus)
    by discriminate.
  assert (H2 : 2 ∈ Note_id <$> (exec (creates l1) initial).1).
  { rewrite exec_created_ids, inputs_creates.
    apply list_elem_of_fmap. exists 2. split; [reflexivity|].
    apply elem_of_seqZ. cbn [l1 length]. lia. }
  split; [reflexivity|]. split; [exact H1|]. split; [exact H2|].
  pose proof (ReadAll_after_creates_and_delete initial l1 l2 2
    (InMemoryStorage.ReadAll
       (exec (creates l1 ++ OpDelete 2 :: creates l2) initial).2)
    eq_refl H1 H2) as H.
  destruct (exec (creates l1 ++ OpDelete 2 :: creates l2) initial)
    as [created g].
  apply H. unfold InMemoryStorage.ReadAllMay. reflexivity.
Defined.

(** ** Strings: trimming never removes a separator *)

Section strings_facts.
Import strconv strings.

Lemma byte_semicolon c : c = ";"%char → byte c = 59.
Proof. by intros ->. Qed.

(** Case analysis on the tests of a white-space table, then on which of
    the bytes taken is the separator. *)
Ltac width_cases :=
  unfold asciiSpace, space2, space3;
  repeat match goal with
         | |- context [if ?b then _ else _] => destruct b eqn:?
         end;
  cbn [take]; rewrite ?elem_of_cons, ?elem_of_nil;
  let H := fresh "H" in
  intros H; repeat destruct H as [H|H]; try done;
  symmetry in H; apply byte_semicolon in H; lia.

(** The bytes of a white-space rune are never [";"]. *)
Lemma spaceWidth_no_sep s :
  ";"%char ∉ take (spaceWidth s) s.
Proof.
  unfold spaceWidth.
  destruct s as [|c0 [|c1 [|c2 s]]]; cbn [fmap list_fmap]; width_cases.
Qed.

Lemma spaceWidthRev_no_sep s :
  ";"%char ∉ take (spaceWidthRev s) s.
Proof.
  unfold spaceWidthRev.
  destruct s as [|c0 [|c1 [|c2 s]]]; cbn [fmap list_fmap]; width_cases.
Qed.

Lemma trim_sep width fuel s :
  (∀ s', ";"%char ∉ take (width s') s') →
  ";"%char ∈ trim width fuel s ↔ ";"%char ∈ s.
Proof.
  intros Hw. revert s. induction fuel as [|fuel IH]; intros s; [done|].
  cbn [trim]. destruct (width s) as [|w] eqn:E; [done|].
  rewrite IH. rewrite <- (take_drop (S w) s) at 2.
  rewrite elem_of_app. specialize (Hw s). rewrite E in Hw. tauto.
Qed.

Lemma TrimSpace_sep s :
  ";"%char ∈ list_ascii_of_string (TrimSpace s)
  ↔ ";"%char ∈ list_ascii_of_string s.
Proof.
  unfold TrimSpace, TrimRightSpace, TrimLeftSpace.
  rewrite list_ascii_of_string_of_list_ascii, elem_of_reverse.
  rewrite trim_sep by apply spaceWidthRev_no_sep.
  rewrite elem_of_reverse. apply trim_sep, spaceWidth_no_sep.
Qed.

Lemma split_no_sep sep s : sep ∉ s → split sep s = [s].
Proof.
  induction s as [|c s IH]; [done|].
  rewrite not_elem_of_cons. intros [Hc Hs]. cbn [split].
  destruct (Ascii.eqb_spec c sep); [congruence|]. by rewrite IH.
Qed.

Lemma split_nonempty sep s : split sep s ≠ [].
Proof.
  destruct s as [|c s]; [done|]. cbn [split].
  destruct (Ascii.eqb c sep); [done|]. by destruct (split sep s).
Qed.
End strings_facts.

(** ** The REPL loop *)

Section Repl_facts.
Context {S : Type} `{!Storage S}.
Import ReplApplication.

(** Only a line without [";"] leaves the loop, and its one token is
    ["exit"]. *)
Lemma shouldExit_tokens input :
  shouldExit input = true → tokens input = ["exit"].
Proof.
  unfold shouldExit, tokens, strings.Split.
  intros Hexit%String.eqb_eq.
  assert (Hsep : ";"%char ∉ list_ascii_of_string input).
  { rewrite <- TrimSpace_sep, Hexit.
    cbn [list_ascii_of_string]. rewrite !not_elem_of_cons.
    split_and!; try discriminate. apply not_elem_of_nil. }
  rewrite split_no_sep by done. cbn [fmap list_fmap].
  by rewrite string_of_list_ascii_of_string, Hexit.
Qed.

Lemma tokens_first input : ∃ a0 args, tokens input = a0 :: args.
Proof.
  unfold tokens, strings.Split.
  pose proof (split_nonempty ";" (list_ascii_of_string input)) as H.
  destruct (strings.split _ _) as [|p ps]; [done|].
  cbn [fmap list_fmap]. eauto.
Qed.

(** A line whose first token is not ["exit"] is dispatched. *)
Lemma turn_dispatch input a0 args (g : S) :
  tokens input = a0 :: args → a0 ≠ "exit" →
  turn input g = mbind (dispatch (a0 :: args)) (λ out, mret (Some out)) g.
Proof.
  intros Htok Ha0. unfold turn.
  destruct (shouldExit input) eqn:E.
  - apply shouldExit_tokens in E. congruence.
  - by rewrite Htok.
Qed.

(** A panic in a turn ends the loop, whatever input is left. *)
Lemma run_panic input rest p (g g' : S) :
  turn input g = Panicked p g' →
  run (input :: rest) g = (["REPL > "], Panicked p g').
Proof. intros H. cbn [run]. by rewrite H. Qed.

Lemma run_continue input rest out (g g' : S) :
  turn input g = Done (Some out) g' →
  run (input :: rest) g =
    ("REPL > " :: out :: (run rest g').1, (run rest g').2).
Proof. intros H. cbn [run]. rewrite H. by destruct (run rest g'). Qed.

(** [dispatch] on each keyword. *)
Lemma dispatch_eq a0 args :
  dispatch (S := S) (a0 :: args) =
    if (a0 =? "CREATE")%string then handleCreate (a0 :: args)
    else if (a0 =? "READ")%string then handleRead (a0 :: args)
    else if (a0 =? "READALL")%string then handleReadAll (a0 :: args)
    else if (a0 =? "UPDATE")%string then handleUpdate (a0 :: args)
    else if (a0 =? "DELETE")%string then handleDelete (a0 :: args)
    else mpanic (PanicString "Unknown command").
Proof. reflexivity. Qed.
End Repl_facts.

(** ** C7: the parsers that ignore their input *)

Section Stub_parsers.
Context {S : Type} `{!Storage S}.

(** C7.  The REPL parser of DELETE returns the message with id 0 for
    every token list, so that the handler, and with it every DELETE line,
    calls the storage [Delete] with id 0; the HTTP parsers of Create,
    Update and Delete return the zero-valued message for every request, so
    that POST calls [Create] with an empty name and content, PUT calls
    [Update] with id 0 and nothing to change, and DELETE calls [Delete]
    with id 0. *)
Theorem Delete_and_http_parsers_ignore_input :
  (∀ s, DeleteParser.fromRepl s = mkDeleteMessage 0)
  ∧ (∀ args (g : S),
       ReplApplication.handleDelete args g =
         Done (ReplPresenter.present
                 (DeleteResult_value (mkDeleteResult (Delete 0 g).1)))
              (Delete 0 g).2)
  ∧ (∀ input args (g : S),
       ReplApplication.tokens input = "DELETE" :: args →
       ReplApplication.turn input g =
         Done (Some (ReplPresenter.present
                       (DeleteResult_value (mkDeleteResult (Delete 0 g).1))))
              (Delete 0 g).2)
  ∧ (∀ r, CreateParser.fromHttp r = mkCreateMessage "" ""
          ∧ UpdateParser.fromHttp r = mkUpdateMessage 0 "" ""
          ∧ DeleteParser.fromHttp r = mkDeleteMessage 0)
  ∧ (∀ quote r (g : S),
       HttpApplication.handlePost quote r g =
         Done (JsonPresenter.present quote
                 (CreateResult_value (mkCreateResult (Create "" "" g).1)))
              (Create "" "" g).2
       ∧ HttpApplication.handlePut quote r g =
           Done (JsonPresenter.present quote
                   (UpdateResult_value (mkUpdateResult (Update 0 "" "" g).1)))
                (Update 0 "" "" g).2
       ∧ HttpApplication.handleDelete quote r g =
           Done (JsonPresenter.present quote
                   (DeleteResult_value (mkDeleteResult (Delete 0 g).1)))
                (Delete 0 g).2).
Proof.
  assert (Hdel : ∀ args (g : S),
       ReplApplication.handleDelete args g =
         Done (ReplPresenter.present
                 (DeleteResult_value (mkDeleteResult (Delete 0 g).1)))
              (Delete 0 g).2).
  { intros args g.
    unfold ReplApplication.handleDelete, mbind, liftS, mret,
      DeleteCommand.execute, DeleteParser.fromRepl.
    cbn [DeleteMessage_id]. by destruct (Delete 0 g). }
  split_and!.
  - reflexivity.
  - exact Hdel.
  - intros input args g Htok.
    rewrite (turn_dispatch input "DELETE" args) by done.
    unfold mbind. rewrite dispatch_eq. cbn [String.eqb Ascii.eqb Bool.eqb].
    by rewrite Hdel.
  - done.
  - intros quote r g. split_and!.
    + unfold HttpApplication.handlePost, mbind, liftS, mret,
        CreateCommand.execute, CreateParser.fromHttp.
      cbn [CreateMessage_name CreateMessage_content].
      by destruct (Create "" "" g).
    + unfold HttpApplication.handlePut, mbind, liftS, mret,
        UpdateCommand.execute, UpdateParser.fromHttp.
      cbn [UpdateMessage_id UpdateMessage_name UpdateMessage_content].
      by destruct (Update 0 "" "" g).
    + unfold HttpApplication.handleDelete, mbind, liftS, mret,
        DeleteCommand.execute, DeleteParser.fromHttp.
      cbn [DeleteMessage_id]. by destruct (Delete 0 g).
Qed.
End Stub_parsers.

Lemma Delete_and_http_parsers_ignore_input_witness :
  let g := mkGlobals 5 {[ 5 := mkNote 5 "A" "B" ]} in
  ReplApplication.tokens (line "DELETE;5") = ["DELETE"; "5"]
  ∧ InMemoryStorage.Read 5 (Delete 0 g).2 = mkNote 5 "A" "B"
  ∧ ReplApplication.turn (line "DELETE;5") g =
      Done (Some (ReplPresenter.present
                    (DeleteResult_value (mkDeleteResult (Delete 0 g).1))))
           (Delete 0 g).2.
Proof.
  intros g.
  assert (H : ReplApplication.tokens (line "DELETE;5") = ["DELETE"; "5"])
    by reflexivity.
  split; [exact H|]. split; [reflexivity|].
  destruct (Delete_and_http_parsers_ignore_input (S := Globals))
    as (_ & _ & Hturn & _).
  exact (Hturn (line "DELETE;5") ["5"] g H).
Defined.

(** ** C9: token lists that are too short *)

Section Short_token_lists.
Context {S : Type} `{!Storage S}.

(** C9.  On a token list shorter than the parser reads, parsing panics
    with an index out of range, at the first index that is missing: index
    1 for READ; index 1 or 2 for CREATE; index 1, 2 or 3 for UPDATE when
    the id token, if present, is a valid number (the index is the length
    of the list, or 1 for an empty list).  A line with such a token list
    ends the loop with that panic; ["CREATE;foo"] and a bare ["READ"] are
    such lines. *)
Theorem Repl_parsers_panic_on_missing_tokens :
  (∀ s : list string,
     (length s < 2)%nat →
     ReadParser.fromRepl s = Panic (IndexOutOfRange 1 (length s)))
  ∧ (∀ s : list string,
       (length s < 3)%nat →
       CreateParser.fromRepl s =
         Panic (IndexOutOfRange (Nat.max 1 (length s)) (length s)))
  ∧ (∀ s : list string,
       (length s < 4)%nat →
       (∀ tok, s !! 1%nat = Some tok → (strconv.Atoi tok).2 = None) →
       UpdateParser.fromRepl s =
         Panic (IndexOutOfRange (Nat.max 1 (length s)) (length s)))
  ∧ (∀ input a0 args rest (g : S),
       ReplApplication.tokens input = a0 :: args →
       (a0 = "READ" ∧ (length (a0 :: args) < 2)%nat)
       ∨ (a0 = "CREATE" ∧ (length (a0 :: args) < 3)%nat)
       ∨ (a0 = "UPDATE" ∧ (length (a0 :: args) < 4)%nat
          ∧ ∀ tok, (a0 :: args) !! 1%nat = Some tok →
                   (strconv.Atoi tok).2 = None) →
       ReplApplication.run (input :: rest) g =
         (["REPL > "],
          Panicked (IndexOutOfRange (Nat.max 1 (length (a0 :: args)))
                      (length (a0 :: args))) g))
  ∧ main [line "CREATE;foo"]
    = (["REPL > "], Panicked (IndexOutOfRange 2 2) initial)
  ∧ main [line "READ"]
    = (["REPL > "], Panicked (IndexOutOfRange 1 1) initial).
Proof.
  assert (Hread : ∀ s : list string,
     (length s < 2)%nat →
     ReadParser.fromRepl s = Panic (IndexOutOfRange 1 (length s))).
  { intros [|a [|b s]] Hlen; cbn [length] in Hlen; [done..|lia]. }
  assert (Hcreate : ∀ s : list string,
     (length s < 3)%nat →
     CreateParser.fromRepl s =
       Panic (IndexOutOfRange (Nat.max 1 (length s)) (length s))).
  { intros [|a [|b [|c s]]] Hlen; cbn [length] in Hlen; [done..|lia]. }
  assert (Hupdate : ∀ s : list string,
     (length s < 4)%nat →
     (∀ tok, s !! 1%nat = Some tok → (strconv.Atoi tok).2 = None) →
     UpdateParser.fromRepl s =
       Panic (IndexOutOfRange (Nat.max 1 (length s)) (length s))).
  { intros [|a [|b [|c [|d s]]]] Hlen Hnum; cbn [length] in Hlen;
      [done | done | | | lia].
    all: specialize (Hnum b eq_refl);
      unfold UpdateParser.fromRepl, index, ebind; cbn [lookup list_lookup];
      destruct (strconv.Atoi b) as [v e]; cbn [snd] in Hnum; subst e;
      reflexivity. }
  split_and!; [exact Hread | exact Hcreate | exact Hupdate | | done | done].
  intros input a0 args rest g Htok Hcase.
  apply run_panic.
  rewrite (turn_dispatch input a0 args g Htok)
    by (destruct Hcase as [[-> _]|[[-> _]|[-> _]]]; discriminate).
  unfold mbind. rewrite dispatch_eq.
  destruct Hcase as [[-> Hlen]|[[-> Hlen]|(-> & Hlen & Hnum)]];
    cbn [String.eqb Ascii.eqb Bool.eqb].
  - unfold ReplApplication.handleRead, mbind, liftE.
    rewrite (Hread _ Hlen).
    destruct args; [reflexivity | cbn [length] in Hlen; lia].
  - unfold ReplApplication.handleCreate, mbind, liftE.
    by rewrite (Hcreate _ Hlen).
  - unfold ReplApplication.handleUpdate, mbind, liftE.
    by rewrite (Hupdate _ Hlen Hnum).
Qed.
End Short_token_lists.

Lemma Repl_parsers_panic_on_missing_tokens_witness :
  (length ["UPDATE"; "7"; "name"] < 4)%nat
  ∧ (∀ tok, ["UPDATE"; "7"; "name"] !! 1%nat = Some tok →
            (strconv.Atoi tok).2 = None)
  ∧ UpdateParser.fromRepl ["UPDATE"; "7"; "name"]
    = Panic (IndexOutOfRange 3 3)
  ∧ ReplApplication.run [line "UPDATE;7;name"; line "exit"] initial
    = (["REPL > "], Panicked (IndexOutOfRange 3 3) initial).
Proof.
  assert (Hlen : (length ["UPDATE"; "7"; "name"] < 4)%nat) by (simpl; lia).
  assert (Hnum : ∀ tok, ["UPDATE"; "7"; "name"] !! 1%nat = Some tok →
                        (strconv.Atoi tok).2 = None).
  { intros tok [= <-]. reflexivity. }
  destruct (Repl_parsers_panic_on_missing_tokens (S := Globals))
    as (_ & _ & Hupdate & Hrun & _).
  split_and!.
  - exact Hlen.
  - exact Hnum.
  - exact (Hupdate _ Hlen Hnum).
  - apply (Hrun (line "UPDATE;7;name") "UPDATE" ["7"; "name"]
             [line "exit"] initial eq_refl).
    right. right. split_and!; [reflexivity | exact Hlen | exact Hnum].
Defined.

(** ** C8: malformed input *)

Section Atoi_facts.
Import strconv.

Lemma maxUint64_eq : maxUint64 = 18446744073709551615.
Proof. reflexivity. Qed.

Lemma digit_bound c d : digit c = Some d → 0 ≤ d ≤ 9.
Proof.
  unfold digit. destruct (_ && _) eqn:E; [|done].
  apply andb_true_iff in E as [H1%Z.leb_le H2%Z.leb_le].
  intros [= <-]. lia.
Qed.

(** An error of [parseUint] is a syntax error with the value [0] or a
    range error with the value [maxUint64]. *)
Lemma parseUint_error n s v e :
  parseUint n s = (v, Some e) →
  (e = ErrSyntax ∧ v = 0) ∨ (e = ErrRange ∧ v = maxUint64).
Proof.
  revert n. induction s as [|c r IH]; intros n; cbn [parseUint]; [done|].
  destruct (digit c) as [d|]; [|intros [= <- <-]; by left].
  destruct (_ <=? _); [intros [= <- <-]; by right|].
  cbv zeta. destruct (_ || _); [intros [= <- <-]; by right|]. apply IH.
Qed.

(** [parseUint] gets to the end of a run of digits only. *)
Lemma parseUint_not_allDigits n s :
  allDigits s = false → ∃ v e, parseUint n s = (v, Some e).
Proof.
  revert n. induction s as [|c r IH]; intros n; [done|].
  cbn [allDigits parseUint]. destruct (digit c) as [d|]; [|eauto].
  rewrite bool_decide_true by eauto. cbn [andb]. intros H.
  destruct (_ <=? _); [eauto|]. cbv zeta. destruct (_ || _); eauto.
Qed.

Lemma parseUint_allDigits n s v :
  parseUint n s = (v, None) → allDigits s = true.
Proof.
  destruct (allDigits s) eqn:E; [done|].
  destruct (parseUint_not_allDigits n s E) as (v' & e & ->). done.
Qed.

(** [ParseInt] returns no error only for a numeral, and then an [int]. *)
Lemma ParseInt_ok s v :
  ParseInt s = (v, None) → isNumeric s = true ∧ GoInt.in_range v.
Proof.
  unfold ParseInt, isNumeric. destruct s as [|c0 r0]; [done|].
  destruct (signed (String c0 r0)) as [neg body]. cbn [snd].
  destruct (ParseUint body) as [un [e|]] eqn:EU.
  - unfold ParseUint in EU. destruct body as [|c r]; [by injection EU as <- <-|].
    apply parseUint_error in EU as [[-> ->] | [-> ->]]; [done|].
    by destruct neg.
  - assert (Hnum : (negb (body =? "")%string && allDigits body) = true).
    { unfold ParseUint in EU. destruct body as [|c r]; [done|].
      cbn [String.eqb negb andb]. eapply parseUint_allDigits, EU. }
    cbv zeta. destruct (negb neg && _); [done|]. destruct (neg && _); [done|].
    intros [= <-]. split; [exact Hnum|]. destruct neg; apply wrap_in_range.
Qed.

(** [ParseInt] rejects what is not a decimal numeral. *)
Lemma ParseInt_not_numeric s :
  isNumeric s = false → ∃ v e, ParseInt s = (v, Some e).
Proof.
  destruct (ParseInt s) as [v [e|]] eqn:E; [eauto|].
  apply ParseInt_ok in E as [E _]. by rewrite E.
Qed.

(** [Atoi] rejects what is not a decimal numeral, with an error that
    names the token. *)
Lemma Atoi_not_numeric s :
  isNumeric s = false → ∃ v e, Atoi s = (v, Some (mkNumError "Atoi" s e)).
Proof.
  intros (v & e & H)%ParseInt_not_numeric. exists v, e.
  unfold Atoi. by rewrite H.
Qed.

End Atoi_facts.

(** C8 as stated fails on the HTTP side, by what the code calls.  A
    handler that panics, for a non-numeric id or an unknown method, ends
    its request and not the process: [net/http] recovers the panic and
    the server answers the next request.  And an [id] parameter that is
    empty, hence not numeric, is taken for an absent one by the test
    [id == ""] of [handleGet].  On the REPL side a DELETE line with a
    non-numeric id token is not fatal either; that one is the stub
    [DeleteParser.fromRepl] of C7, which reads no token at all. *)
Lemma Malformed_input_not_always_fatal :
  HttpApplication.run json.quotePlain
    [mkRequest "GET" [("id", "notanumber")];
     mkRequest "PATCH" [];
     mkRequest "GET" []] initial
  = ([http.Aborted (PanicError (mkNumError "Atoi" "notanumber" ErrSyntax));
      http.Aborted (PanicString "Uknown method");
      http.Body (line "{}")], initial)
  ∧ (strconv.isNumeric "" = false
     ∧ HttpApplication.handler json.quotePlain
         (mkRequest "GET" [("id", "")]) initial
       = Done (line "{}") initial)
  ∧ (ReplApplication.tokens (line "DELETE;notanumber") = ["DELETE"; "notanumber"]
     ∧ strconv.isNumeric "notanumber" = false
     ∧ main [line "DELETE;notanumber"; line "exit"]
       = (["REPL > "; line "{{0  }}"; "REPL > "], Done () initial)).
Proof.
  split_and!; reflexivity.
Qed.

Section Malformed_input.
Context {S : Type} `{!Storage S}.

(** C8, amended.  On the REPL, a line whose first token is READ or UPDATE
    and whose id token [Atoi] rejects, as it does every token that is not
    a decimal numeral, and a line whose first token is none of the five
    keywords and not ["exit"], end the loop with a panic and no result,
    whatever input follows.  On HTTP, a GET whose [id] parameter is not
    empty and is rejected by [Atoi], and a request with a method other
    than GET, POST, PUT and DELETE, make the handler panic with the
    storage untouched; that request gets no response and the server goes
    on with the requests that follow, from the same storage.  A GET whose
    [id] parameter is empty is handled as a GET without [id], whatever
    other parameters it has: it is answered with the result of
    [ReadAll]. *)
Theorem Malformed_input_panics :
  (∀ input a0 tok args rest v e (g : S),
     ReplApplication.tokens input = a0 :: tok :: args →
     a0 = "READ" ∨ a0 = "UPDATE" →
     strconv.Atoi tok = (v, Some e) →
     ReplApplication.run (input :: rest) g
     = (["REPL > "], Panicked (PanicError e) g))
  ∧ (∀ tok,
       strconv.isNumeric tok = false →
       ∃ v err, strconv.Atoi tok = (v, Some (mkNumError "Atoi" tok err)))
  ∧ (∀ input a0 args rest (g : S),
       ReplApplication.tokens input = a0 :: args →
       a0 ∉ ["CREATE"; "READ"; "READALL"; "UPDATE"; "DELETE"; "exit"] →
       ReplApplication.run (input :: rest) g
       = (["REPL > "], Panicked (PanicString "Unknown command") g))
  ∧ (∀ input, ∃ a0 args, ReplApplication.tokens input = a0 :: args)
  ∧ (∀ quote r rest v e (g : S),
       Method r = "GET" →
       Get (Query r) "id" ≠ "" →
       strconv.Atoi (Get (Query r) "id") = (v, Some e) →
       HttpApplication.handler quote r g = Panicked (PanicError e) g
       ∧ HttpApplication.run quote (r :: rest) g
         = (http.Aborted (PanicError e)
              :: (HttpApplication.run quote rest g).1,
            (HttpApplication.run quote rest g).2))
  ∧ (∀ quote r rest (g : S),
       Method r ∉ ["GET"; "POST"; "PUT"; "DELETE"] →
       HttpApplication.handler quote r g
       = Panicked (PanicString "Uknown method") g
       ∧ HttpApplication.run quote (r :: rest) g
         = (http.Aborted (PanicString "Uknown method")
              :: (HttpApplication.run quote rest g).1,
            (HttpApplication.run quote rest g).2))
  ∧ (∀ quote r (g : S),
       Method r = "GET" →
       Get (Query r) "id" = "" →
       HttpApplication.handler quote r g
       = HttpApplication.handler quote (mkRequest "GET" []) g
       ∧ HttpApplication.handler quote r g
         = Done (JsonPresenter.present quote
                   (ReadAllResult_value (mkReadAllResult (ReadAll g)))) g).
Proof.
  assert (Hserve : ∀ quote r rest p (g : S),
            HttpApplication.handler quote r g = Panicked p g →
            HttpApplication.run quote (r :: rest) g
            = (http.Aborted p :: (HttpApplication.run quote rest g).1,
               (HttpApplication.run quote rest g).2)).
  { intros quote r rest p g Hp.
    unfold HttpApplication.run. cbn [http.Serve]. rewrite Hp.
    by destruct (http.Serve _ rest g). }
  split_and!.
  - intros input a0 tok args rest v e g Htok Ha0 Hatoi.
    apply run_panic.
    rewrite (turn_dispatch input a0 (tok :: args) g Htok)
      by (destruct Ha0 as [-> | ->]; discriminate).
    unfold mbind. rewrite dispatch_eq.
    destruct Ha0 as [-> | ->]; cbn [String.eqb Ascii.eqb Bool.eqb].
    + unfold ReplApplication.handleRead, mbind, liftE,
        ReadParser.fromRepl, index, ebind.
      cbn [lookup list_lookup]. by rewrite Hatoi.
    + unfold ReplApplication.handleUpdate, mbind, liftE,
        UpdateParser.fromRepl, index, ebind.
      cbn [lookup list_lookup]. by rewrite Hatoi.
  - apply Atoi_not_numeric.
  - intros input a0 args rest g Htok Ha0.
    rewrite !not_elem_of_cons in Ha0.
    destruct Ha0 as (H1 & H2 & H3 & H4 & H5 & H6 & _).
    apply run_panic.
    rewrite (turn_dispatch input a0 args g Htok) by done.
    unfold mbind. rewrite dispatch_eq.
    apply String.eqb_neq in H1, H2, H3, H4, H5.
    by rewrite H1, H2, H3, H4, H5.
  - apply tokens_first.
  - intros quote r rest v e g Hm Hid Hatoi.
    assert (Hp : HttpApplication.handler quote r g = Panicked (PanicError e) g).
    { unfold HttpApplication.handler, HttpApplication.handleGet.
      rewrite Hm. cbn [String.eqb Ascii.eqb Bool.eqb].
      apply String.eqb_neq in Hid. by rewrite Hid, Hatoi. }
    split; [exact Hp | by apply Hserve].
  - intros quote r rest g Hm.
    rewrite !not_elem_of_cons in Hm.
    destruct Hm as (H1 & H2 & H3 & H4 & _).
    assert (Hp : HttpApplication.handler quote r g
                 = Panicked (PanicString "Uknown method") g).
    { unfold HttpApplication.handler.
      apply String.eqb_neq in H1, H2, H3, H4.
      by rewrite H1, H2, H3, H4. }
    split; [exact Hp | by apply Hserve].
  - intros quote r g Hm Hid.
    unfold HttpApplication.handler, HttpApplication.handleGet.
    rewrite Hm, Hid. cbn [String.eqb Ascii.eqb Bool.eqb Method Query Get].
    done.
Qed.
End Malformed_input.

Lemma Malformed_input_panics_witness :
  (ReplApplication.tokens (line "READ;notanumber") = ["READ"; "notanumber"]
   ∧ strconv.Atoi "notanumber"
     = (0, Some (mkNumError "Atoi" "notanumber" ErrSyntax))
   ∧ main [line "READ;notanumber"; line "exit"]
     = (["REPL > "],
        Panicked (PanicError (mkNumError "Atoi" "notanumber" ErrSyntax))
          initial))
  ∧ (strconv.Atoi "99999999999999999999x"
     = (GoInt.maxInt,
        Some (mkNumError "Atoi" "99999999999999999999x" ErrRange))
     ∧ HttpApplication.run json.quotePlain
         [mkRequest "GET" [("id", "99999999999999999999x")];
          mkRequest "GET" []] initial
       = ([http.Aborted
             (PanicError
                (mkNumError "Atoi" "99999999999999999999x" ErrRange));
           http.Body (line "{}")], initial))
  ∧ HttpApplication.handler json.quotePlain
      (mkRequest "GET" [("id", ""); ("x", "1")]) initial
    = Done (line "{}") initial.
Proof.
  assert (Htok : ReplApplication.tokens (line "READ;notanumber")
                 = ["READ"; "notanumber"]) by reflexivity.
  assert (Hsyn : strconv.Atoi "notanumber"
                 = (0, Some (mkNumError "Atoi" "notanumber" ErrSyntax)))
    by reflexivity.
  assert (Hrng : strconv.Atoi "99999999999999999999x"
                 = (GoInt.maxInt,
                    Some (mkNumError "Atoi" "99999999999999999999x" ErrRange)))
    by reflexivity.
  destruct (Malformed_input_panics (S := Globals))
    as (Hread & _ & _ & _ & Hget & _ & Hempty).
  split_and!; [exact Htok | exact Hsyn | | exact Hrng | |].
  - exact (Hread (line "READ;notanumber") "READ" "notanumber" [] [line "exit"]
             _ _ initial Htok (or_introl eq_refl) Hsyn).
  - exact (proj2 (Hget json.quotePlain
                    (mkRequest "GET" [("id", "99999999999999999999x")])
                    [mkRequest "GET" []] _ _ initial eq_refl
                    ltac:(discriminate) Hrng)).
  - exact (proj2 (Hempty json.quotePlain
                    (mkRequest "GET" [("id", ""); ("x", "1")]) initial
                    eq_refl eq_refl)).
Defined.

(** ** C6: what an HTTP GET returns *)

(** C6 does not hold of the code.  The HTTP parser of Read drops the id
    of the request (the REPL parser reads it), so that GET with [id=1]
    reads the note under key 0: after one [Create] that is the zero-valued
    note, not the created one.  And every field of the results and of
    [Note] is unexported, so that the JSON encoder writes the empty object
    for the result of Read and of ReadAll alike: neither the note nor an
    array of the notes. *)
Theorem Http_GET_returns_empty_object :
  (∀ r, ReadParser.fromHttp r = mkReadMessage 0)
  ∧ (∀ quote (r : ReadResult),
       JsonPresenter.present quote (ReadResult_value r) = line "{}")
  ∧ (∀ quote (r : ReadAllResult),
       JsonPresenter.present quote (ReadAllResult_value r) = line "{}")
  ∧ (let '(n, g1) := InMemoryStorage.Create "A" "B" initial in
     n = mkNote 1 "A" "B"
     ∧ ReadCommand.execute
         (ReadParser.fromHttp (mkRequest "GET" [("id", "1")])) g1
       = (mkReadResult zeroNote, g1)
     ∧ ReadCommand.execute (mkReadMessage 1) g1
       = (mkReadResult (mkNote 1 "A" "B"), g1)
     ∧ ∀ quote,
         HttpApplication.handler quote (mkRequest "GET" [("id", "1")]) g1
         = Done (line "{}") g1
         ∧ HttpApplication.handler quote (mkRequest "GET" []) g1
           = Done (line "{}") g1).
Proof.
  split_and!; try reflexivity.
  rewrite Create_eq. change (GoInt.wrap (id initial + 1)) with 1.
  split_and!; try reflexivity.
  intros quote. split; reflexivity.
Qed.

(* ================================================================== *)
(** * Further properties of the code *)

(** ** Storage: round trips and composition *)

(** [Create] then [Read]: the id that [Create] returns reads as the note
    it returned, which carries the given name and content; that id is the
    new counter and a valid [int]; every other id reads as before. *)
Theorem Create_then_Read (g : Globals) (name : Name) (content : Content) :
  let '(n, g') := InMemoryStorage.Create name content g in
  InMemoryStorage.Read (Note_id n) g' = n
  ∧ Note_name n = name ∧ Note_content n = content
  ∧ id g' = Note_id n
  ∧ GoInt.in_range (Note_id n)
  ∧ ∀ j, j ≠ Note_id n → InMemoryStorage.Read j g' = InMemoryStorage.Read j g.
Proof.
  rewrite Create_eq. cbn [Note_id Note_name Note_content id].
  split_and!; try reflexivity.
  - rewrite Read_lookup. cbn [noteMap]. by rewrite lookup_insert_eq.
  - apply wrap_in_range.
  - intros j Hj. rewrite !Read_lookup. cbn [noteMap].
    by rewrite lookup_insert_ne.
Qed.

(** Two [Update]s of one id in a row are one [Update] with, for each
    field, the second value unless it is empty and else the first: the
    same returned note and the same state.  So an [Update] done twice is
    the [Update] done once. *)
Theorem Update_twice (g : Globals) (i : Id) (n1 c1 n2 c2 : string) :
  InMemoryStorage.Update i n2 c2 (InMemoryStorage.Update i n1 c1 g).2
  = InMemoryStorage.Update i
      (if decide (n2 = "") then n1 else n2)
      (if decide (c2 = "") then c1 else c2) g
  ∧ InMemoryStorage.Update i n1 c1 (InMemoryStorage.Update i n1 c1 g).2
    = InMemoryStorage.Update i n1 c1 g.
Proof.
  assert (H : ∀ a b c d,
    InMemoryStorage.Update i c d (InMemoryStorage.Update i a b g).2
    = InMemoryStorage.Update i
        (if decide (c = "") then a else c)
        (if decide (d = "") then b else d) g).
  { intros a b c d. rewrite !Update_eq. cbn [snd noteMap id].
    rewrite lookup_insert_eq, insert_insert_eq. cbn [default].
    cbn [Note_id Note_name Note_content].
    repeat case_decide; subst; try congruence; reflexivity. }
  split; [apply H|].
  rewrite H. by repeat case_decide; subst.
Qed.

(** [Delete] of an absent id returns the zero-valued note and changes
    nothing, so a second [Delete] of the same id does nothing; [Delete]s
    of two ids commute; and [Delete] of the id that [Create] just
    allocated, when that id was free, gives the note back and restores the
    map, the counter staying advanced. *)
Theorem Delete_absent_and_undo (g : Globals) (i j : Id) :
  (noteMap g !! i = None → InMemoryStorage.Delete i g = (zeroNote, g))
  ∧ InMemoryStorage.Delete i (InMemoryStorage.Delete i g).2
    = (zeroNote, (InMemoryStorage.Delete i g).2)
  ∧ (InMemoryStorage.Delete j (InMemoryStorage.Delete i g).2).2
    = (InMemoryStorage.Delete i (InMemoryStorage.Delete j g).2).2
  ∧ (∀ name content,
       noteMap g !! GoInt.wrap (id g + 1) = None →
       let '(n, g1) := InMemoryStorage.Create name content g in
       InMemoryStorage.Delete (Note_id n) g1
       = (n, mkGlobals (Note_id n) (noteMap g))).
Proof.
  assert (Habsent : ∀ g' k, noteMap g' !! k = None →
                            InMemoryStorage.Delete k g' = (zeroNote, g')).
  { intros g' k Hk. rewrite Delete_eq, Hk. cbn [default].
    rewrite delete_id by done. by rewrite Globals_eta. }
  split_and!.
  - apply Habsent.
  - apply Habsent. rewrite Delete_eq. cbn [snd noteMap].
    apply lookup_delete_eq.
  - rewrite !Delete_eq. cbn [snd noteMap id]. f_equal. apply delete_delete.
  - intros name content Hfree. rewrite Create_eq, Delete_eq.
    cbn [Note_id noteMap id]. rewrite lookup_insert_eq. cbn [default].
    by rewrite delete_insert_eq, delete_id.
Qed.

Lemma Delete_absent_and_undo_witness :
  noteMap initial !! 3 = None
  ∧ InMemoryStorage.Delete 3 initial = (zeroNote, initial)
  ∧ noteMap initial !! GoInt.wrap (id initial + 1) = None
  ∧ InMemoryStorage.Delete 1 (InMemoryStorage.Create "A" "B" initial).2
    = (mkNote 1 "A" "B", mkGlobals 1 ∅).
Proof.
  assert (H3 : noteMap initial !! 3 = None) by apply lookup_empty.
  assert (H1 : noteMap initial !! GoInt.wrap (id initial + 1) = None)
    by apply lookup_empty.
  destruct (Delete_absent_and_undo initial 3 3) as (Ha & _ & _ & Hu).
  split_and!; [exact H3 | exact (Ha H3) | exact H1 |].
  exact (Hu "A" "B" H1).
Defined.

(** ** Storage: what [ReadAll] returns and what the map keeps *)

(** Whatever order the map is visited in, [ReadAll] returns one note for
    each entry of the map: as many notes as the map has keys, a note being
    among them exactly when it is stored under some key; the result is
    empty exactly when the map is; and when every note is stored under its
    own id, no two notes of the result have the same id. *)
Theorem ReadAll_returns_the_stored_notes (g : Globals) (notes : NoteList) :
  InMemoryStorage.ReadAllMay g notes →
  length notes = size (noteMap g)
  ∧ (∀ n, n ∈ notes ↔ ∃ k, noteMap g !! k = Some n)
  ∧ (notes = [] ↔ noteMap g = ∅)
  ∧ (keys_are_ids g → NoDup (Note_id <$> notes)).
Proof.
  unfold InMemoryStorage.ReadAllMay, InMemoryStorage.ReadAll. intros Hp.
  assert (Hlen : length notes = size (noteMap g)).
  { rewrite Hp, length_fmap. apply length_map_to_list. }
  split_and!.
  - exact Hlen.
  - intros n. rewrite Hp, list_elem_of_fmap. split.
    + intros ([k n'] & -> & Hin%elem_of_map_to_list). eauto.
    + intros [k Hk]. exists (k, n). split; [done|].
      by apply elem_of_map_to_list.
  - split.
    + intros ->. apply map_size_empty_inv. by rewrite <- Hlen.
    + intros Hempty. rewrite Hempty, map_size_empty in Hlen.
      by destruct notes.
  - intros Hkeys. rewrite Hp.
    replace (Note_id <$> (map_to_list (noteMap g)).*2)
      with ((map_to_list (noteMap g)).*1).
    { apply NoDup_fst_map_to_list. }
    rewrite <- list_fmap_compose. apply Forall_fmap_ext, Forall_forall.
    intros [k n] Hin%elem_of_map_to_list. cbn. symmetry. by apply Hkeys.
Qed.

Lemma ReadAll_returns_the_stored_notes_witness :
  let g := mkGlobals 1 {[ 1 := mkNote 1 "A" "B" ]} in
  InMemoryStorage.ReadAllMay g [mkNote 1 "A" "B"]
  ∧ length [mkNote 1 "A" "B"] = size (noteMap g).
Proof.
  intros g.
  assert (H : InMemoryStorage.ReadAllMay g [mkNote 1 "A" "B"]).
  { unfold InMemoryStorage.ReadAllMay, InMemoryStorage.ReadAll.
    cbn [g noteMap]. by rewrite map_to_list_singleton. }
  split; [exact H|].
  exact (proj1 (ReadAll_returns_the_stored_notes g _ H)).
Defined.

(** Every note is stored under its own id: this holds initially, and
    [Create] and [Delete] keep it, as does [Update] of an id that is
    present (or of id 0); so it holds after every sequence of calls
    without [Update] from the initial state. *)
Theorem keys_are_ids_kept :
  keys_are_ids initial
  ∧ (∀ g name content,
       keys_are_ids g →
       keys_are_ids (InMemoryStorage.Create name content g).2)
  ∧ (∀ g i, keys_are_ids g → keys_are_ids (InMemoryStorage.Delete i g).2)
  ∧ (∀ g i name content,
       keys_are_ids g →
       is_Some (noteMap g !! i) ∨ i = 0 →
       keys_are_ids (InMemoryStorage.Update i name content g).2)
  ∧ (∀ ops g,
       keys_are_ids g → forallb notUpdate ops = true →
       keys_are_ids (exec ops g).2).
Proof.
  assert (Hcreate : ∀ g name content,
       keys_are_ids g →
       keys_are_ids (InMemoryStorage.Create name content g).2).
  { intros g name content Hg k n. rewrite Create_eq. cbn [snd noteMap].
    rewrite lookup_insert. case_decide as Hk.
    - intros [= <-]. by subst.
    - apply Hg. }
  assert (Hdelete : ∀ g i, keys_are_ids g →
                           keys_are_ids (InMemoryStorage.Delete i g).2).
  { intros g i Hg k n. rewrite Delete_eq. cbn [snd noteMap].
    intros [_ H]%lookup_delete_Some. by apply Hg. }
  split_and!.
  - intros k n H. cbn in H. by rewrite lookup_empty in H.
  - exact Hcreate.
  - exact Hdelete.
  - intros g i name content Hg Hi k n. rewrite Update_eq. cbn [snd noteMap].
    rewrite lookup_insert. case_decide as Hk; [|apply Hg].
    intros [= <-]. subst k. cbn [Note_id].
    destruct (noteMap g !! i) as [old|] eqn:E; cbn [default].
    + by apply Hg.
    + destruct Hi as [[? ?]| ->]; [done | reflexivity].
  - intros ops. induction ops as [|o ops IH]; intros g Hg Hops; [done|].
    cbn [forallb] in Hops. apply andb_true_iff in Hops as [Ho Hops].
    destruct o as [|i|name content|i name content|i]; cbn [exec];
      try discriminate Ho; try by apply IH.
    + pose proof (Hcreate g name content Hg) as Hc.
      destruct (InMemoryStorage.Create name content g) as [n g'].
      specialize (IH g' Hc Hops). by destruct (exec ops g').
    + apply IH; [by apply Hdelete | done].
Qed.

Lemma keys_are_ids_kept_witness :
  keys_are_ids initial
  ∧ forallb notUpdate [OpCreate "A" "B"; OpDelete 1; OpCreate "C" "D"] = true
  ∧ keys_are_ids
      (exec [OpCreate "A" "B"; OpDelete 1; OpCreate "C" "D"] initial).2.
Proof.
  destruct keys_are_ids_kept as (H0 & _ & _ & _ & Hops).
  split_and!; [exact H0 | reflexivity |].
  exact (Hops [OpCreate "A" "B"; OpDelete 1; OpCreate "C" "D"] initial H0
           eq_refl).
Defined.

(** While no key is above the counter and the counter is below the
    largest [int], [Create] never overwrites: the id it allocates is free,
    every stored note stays where it is, the map grows by one entry and
    [ReadAll] returns the new note beside the old ones; and the state
    after it again has no key above the counter.  [Delete] keeps that, and
    so does [Update] of an id that is not above the counter. *)
Theorem Create_never_overwrites (g : Globals) :
  keys_below_counter g →
  (∀ name content,
     id g < GoInt.maxInt →
     let '(n, g') := InMemoryStorage.Create name content g in
     noteMap g !! Note_id n = None
     ∧ (∀ j m, noteMap g !! j = Some m → noteMap g' !! j = Some m)
     ∧ size (noteMap g') = Datatypes.S (size (noteMap g))
     ∧ (∀ notes, InMemoryStorage.ReadAllMay g' notes →
                 notes ≡ₚ n :: InMemoryStorage.ReadAll g)
     ∧ keys_below_counter g')
  ∧ (∀ i, keys_below_counter (InMemoryStorage.Delete i g).2)
  ∧ (∀ i name content,
       i ≤ id g →
       keys_below_counter (InMemoryStorage.Update i name content g).2).
Proof.
  intros [Hr Hk]. split_and!.
  - intros name content Hlt. rewrite Create_eq.
    assert (Hw : GoInt.wrap (id g + 1) = id g + 1).
    { apply wrap_id. unfold GoInt.in_range in *. lia. }
    rewrite Hw. cbn [Note_id noteMap id].
    assert (Hfree : noteMap g !! (id g + 1) = None).
    { destruct (noteMap g !! (id g + 1)) as [m|] eqn:E; [|done].
      apply Hk in E. lia. }
    split_and!.
    + exact Hfree.
    + intros j m Hj. rewrite lookup_insert_ne; [done|].
      intros <-. congruence.
    + by apply map_size_insert_None.
    + unfold InMemoryStorage.ReadAllMay, InMemoryStorage.ReadAll.
      cbn [noteMap]. intros notes ->.
      by rewrite map_to_list_insert.
    + split.
      * rewrite <- Hw. apply wrap_in_range.
      * intros k n. cbn [noteMap id]. rewrite lookup_insert.
        case_decide; [intros _; lia|]. intros Hx%Hk. lia.
  - intros i. rewrite Delete_eq. split; [exact Hr|].
    intros k n. cbn [snd noteMap id].
    intros [_ H]%lookup_delete_Some. by apply Hk in H.
  - intros i name content Hi. rewrite Update_eq. split; [exact Hr|].
    intros k n. cbn [snd noteMap id]. rewrite lookup_insert.
    case_decide; [intros _; lia|]. apply Hk.
Qed.

Lemma Create_never_overwrites_witness :
  let g := mkGlobals 1 {[ 1 := mkNote 1 "A" "B" ]} in
  keys_below_counter g
  ∧ id g < GoInt.maxInt
  ∧ noteMap g !! Note_id (InMemoryStorage.Create "C" "D" g).1 = None
  ∧ size (noteMap (InMemoryStorage.Create "C" "D" g).2) = 2%nat.
Proof.
  intros g.
  assert (Hk : keys_below_counter g).
  { split; [split; discriminate|]. intros k n. cbn [g noteMap id].
    intros [-> _]%lookup_singleton_Some. lia. }
  assert (Hlt : id g < GoInt.maxInt) by reflexivity.
  pose proof (proj1 (Create_never_overwrites g Hk) "C" "D" Hlt) as H.
  rewrite Create_eq in H |- *. destruct H as (H1 & _ & H2 & _).
  split_and!; [exact Hk | exact Hlt | exact H1 |].
  etrans; [exact H2|]. cbn [g noteMap]. by rewrite map_size_singleton.
Defined.

(** ** The REPL: what each command does *)

Section Repl_commands.
Context {S : Type} `{!Storage S}.

Lemma dispatch_CREATE name content more (g : S) :
  ReplApplication.dispatch ("CREATE" :: name :: content :: more) g =
    Done (ReplPresenter.present
            (CreateResult_value (mkCreateResult (Create name content g).1)))
         (Create name content g).2.
Proof.
  rewrite dispatch_eq. cbn [String.eqb Ascii.eqb Bool.eqb].
  unfold ReplApplication.handleCreate, mbind, liftE, liftS, mret,
    CreateParser.fromRepl, index, ebind, CreateCommand.execute.
  cbn [lookup list_lookup CreateMessage_name CreateMessage_content].
  by destruct (Create name content g).
Qed.

Lemma dispatch_READALL more (g : S) :
  ReplApplication.dispatch ("READALL" :: more) g =
    Done (ReplPresenter.present
            (ReadAllResult_value (mkReadAllResult (ReadAll g)))) g.
Proof. reflexivity. Qed.

Lemma turn_Done input a0 args out (g g' : S) :
  ReplApplication.tokens input = a0 :: args → a0 ≠ "exit" →
  ReplApplication.dispatch (a0 :: args) g = Done out g' →
  ReplApplication.turn input g = Done (Some out) g'.
Proof.
  intros Htok Ha0 Hd. rewrite (turn_dispatch input a0 args g Htok Ha0).
  unfold mbind. by rewrite Hd.
Qed.

(** A CREATE line calls [Create] with its second and third token as they
    are (empty ones too), ignores any further token and prints the
    result. *)
Theorem Repl_CREATE_calls_Create input name content more (g : S) :
  ReplApplication.tokens input = "CREATE" :: name :: content :: more →
  ReplApplication.turn input g =
    Done (Some (ReplPresenter.present
                  (CreateResult_value
                     (mkCreateResult (Create name content g).1))))
         (Create name content g).2.
Proof.
  intros Htok. eapply turn_Done; [exact Htok | discriminate |].
  apply dispatch_CREATE.
Qed.

(** A READ line whose id token is a number reads that id, and a READALL
    line reads every note; both print the result, ignore any further token
    and leave the state of the storage as they got it. *)
Theorem Repl_READ_and_READALL input (g : S) :
  (∀ tok more k,
     ReplApplication.tokens input = "READ" :: tok :: more →
     strconv.Atoi tok = (k, None) →
     ReplApplication.turn input g =
       Done (Some (ReplPresenter.present
                     (ReadResult_value (mkReadResult (Read k g))))) g)
  ∧ (∀ more,
       ReplApplication.tokens input = "READALL" :: more →
       ReplApplication.turn input g =
         Done (Some (ReplPresenter.present
                       (ReadAllResult_value (mkReadAllResult (ReadAll g))))) g).
Proof.
  split.
  - intros tok more k Htok Hk.
    eapply turn_Done; [exact Htok | discriminate |].
    rewrite dispatch_eq. cbn [String.eqb Ascii.eqb Bool.eqb].
    unfold ReplApplication.handleRead, mbind, liftE, liftS, mret,
      ReadParser.fromRepl, index, ebind, ReadCommand.execute.
    cbn [lookup list_lookup]. by rewrite Hk.
  - intros more Htok.
    eapply turn_Done; [exact Htok | discriminate |].
    apply dispatch_READALL.
Qed.

(** An UPDATE line whose id token is a number calls [Update] with that
    id and with its third and fourth token as name and content, an empty
    token standing for no change; it ignores any further token and prints
    the result. *)
Theorem Repl_UPDATE_calls_Update input tok name content more k (g : S) :
  ReplApplication.tokens input = "UPDATE" :: tok :: name :: content :: more →
  strconv.Atoi tok = (k, None) →
  ReplApplication.turn input g =
    Done (Some (ReplPresenter.present
                  (UpdateResult_value
                     (mkUpdateResult (Update k name content g).1))))
         (Update k name content g).2.
Proof.
  intros Htok Hk. eapply turn_Done; [exact Htok | discriminate |].
  rewrite dispatch_eq. cbn [String.eqb Ascii.eqb Bool.eqb].
  unfold ReplApplication.handleUpdate, mbind, liftE, liftS, mret,
    UpdateParser.fromRepl, index, ebind, UpdateCommand.execute.
  cbn [lookup list_lookup]. rewrite Hk.
  cbn [UpdateMessage_id UpdateMessage_name UpdateMessage_content].
  by destruct (Update k name content g).
Qed.
End Repl_commands.

Lemma Repl_CREATE_calls_Create_witness :
  ReplApplication.tokens (line "CREATE; foo ;;extra")
  = ["CREATE"; "foo"; ""; "extra"]
  ∧ ReplApplication.turn (line "CREATE; foo ;;extra") initial =
      Done (Some (line "{{1 foo }}"))
           (mkGlobals 1 {[ 1 := mkNote 1 "foo" "" ]}).
Proof.
  assert (H : ReplApplication.tokens (line "CREATE; foo ;;extra")
              = ["CREATE"; "foo"; ""; "extra"]) by reflexivity.
  split; [exact H|].
  rewrite (Repl_CREATE_calls_Create (S := Globals) _ "foo" "" ["extra"]
             initial H).
  reflexivity.
Defined.

Lemma Repl_READ_and_READALL_witness :
  let g := mkGlobals 7 {[ 7 := mkNote 7 "A" "B" ]} in
  ReplApplication.tokens (line "READ;+007") = ["READ"; "+007"]
  ∧ strconv.Atoi "+007" = (7, None)
  ∧ ReplApplication.turn (line "READ;+007") g
    = Done (Some (line "{{7 A B}}")) g.
Proof.
  intros g.
  assert (H : ReplApplication.tokens (line "READ;+007") = ["READ"; "+007"])
    by reflexivity.
  assert (Hk : strconv.Atoi "+007" = (7, None)) by reflexivity.
  split_and!; [exact H | exact Hk |].
  rewrite (proj1 (Repl_READ_and_READALL (S := Globals) _ g) "+007" [] 7 H Hk).
  reflexivity.
Defined.

Lemma Repl_UPDATE_calls_Update_witness :
  let g := mkGlobals 7 {[ 7 := mkNote 7 "A" "B" ]} in
  ReplApplication.tokens (line "UPDATE;7;;C") = ["UPDATE"; "7"; ""; "C"]
  ∧ strconv.Atoi "7" = (7, None)
  ∧ ReplApplication.turn (line "UPDATE;7;;C") g
    = Done (Some (line "{{7 A C}}"))
           (mkGlobals 7 (<[7 := mkNote 7 "A" "C"]> {[ 7 := mkNote 7 "A" "B" ]})).
Proof.
  intros g.
  assert (H : ReplApplication.tokens (line "UPDATE;7;;C")
              = ["UPDATE"; "7"; ""; "C"]) by reflexivity.
  assert (Hk : strconv.Atoi "7" = (7, None)) by reflexivity.
  split_and!; [exact H | exact Hk |].
  rewrite (Repl_UPDATE_calls_Update (S := Globals) _ "7" "" "C" [] 7 g H Hk).
  reflexivity.
Defined.

(** ** A rejected line or request *)

Section Rejected_input.
Context {S : Type} `{!Storage S}.

Lemma parse_then_execute_panic {A R} (e : Exec A) (f : A → S → R * S)
  (k : R → string) (g g' : S) p :
  mbind (liftE e) (λ m, mbind (liftS (f m)) (λ r, mret (k r))) g
  = Panicked p g' →
  g' = g.
Proof.
  unfold mbind, liftE, liftS, mret. destruct e as [a|q].
  - by destruct (f a g).
  - by intros [= _ <-].
Qed.

Lemma execute_never_panics {R} (f : S → R * S) (k : R → string) (g g' : S) p :
  mbind (liftS f) (λ r, mret (k r)) g ≠ Panicked p g'.
Proof. unfold mbind, liftS, mret. by destruct (f g). Qed.

(** A panic always comes before the storage is called: the REPL line or
    the HTTP request that panics leaves the state of the storage exactly
    as it was. *)
Theorem Panic_leaves_the_storage_untouched :
  (∀ input (g g' : S) p,
     ReplApplication.turn input g = Panicked p g' → g' = g)
  ∧ (∀ quote r (g g' : S) p,
       HttpApplication.handler quote r g = Panicked p g' → g' = g).
Proof.
  split.
  - intros input g g' p. unfold ReplApplication.turn.
    destruct (ReplApplication.shouldExit input); [discriminate|].
    unfold mbind at 1.
    destruct (ReplApplication.dispatch _ g) as [out s|q s] eqn:E;
      [discriminate|].
    intros [= -> ->]. revert E.
    destruct (ReplApplication.tokens input) as [|a0 args].
    { by intros [= _ <-]. }
    rewrite dispatch_eq.
    repeat match goal with
           | |- context [if ?b then _ else _] => destruct b
           end.
    + apply parse_then_execute_panic.
    + apply parse_then_execute_panic.
    + intros E. by apply execute_never_panics in E.
    + apply parse_then_execute_panic.
    + intros E. by apply execute_never_panics in E.
    + by intros [= _ <-].
  - intros quote r g g' p. unfold HttpApplication.handler.
    repeat match goal with
           | |- context [if ?b then _ else _] => destruct b
           end;
      try (intros E; by apply execute_never_panics in E);
      [|by intros [= _ <-]].
    unfold HttpApplication.handleGet.
    destruct (Get (Query r) "id" =? "")%string.
    + intros E. by apply execute_never_panics in E.
    + destruct (strconv.Atoi _) as [v [e|]].
      * by intros [= _ <-].
      * intros E. by apply execute_never_panics in E.
Qed.
End Rejected_input.

Lemma Panic_leaves_the_storage_untouched_witness :
  let g := mkGlobals 7 {[ 7 := mkNote 7 "A" "B" ]} in
  ReplApplication.turn (line "UPDATE;x;C;D") g
  = Panicked (PanicError (mkNumError "Atoi" "x" ErrSyntax)) g.
Proof.
  intros g.
  destruct (ReplApplication.turn (line "UPDATE;x;C;D") g) as [o s|p s] eqn:E.
  - discriminate E.
  - pose proof (proj1 (Panic_leaves_the_storage_untouched (S := Globals))
                  _ _ _ _ E) as ->.
    injection E as <-. reflexivity.
Defined.

(** ** The REPL loop: how a session ends *)

Section Repl_sessions.
Context {S : Type} `{!Storage S}.

Lemma run_exit e rest (g : S) :
  ReplApplication.shouldExit e = true →
  ReplApplication.run (e :: rest) g = (["REPL > "], Done () g).
Proof.
  intros He. cbn [ReplApplication.run].
  unfold ReplApplication.turn. by rewrite He.
Qed.

(** The loop stops reading at the first line that is ["exit"] once
    trimmed: whatever follows that line is never read, the line itself
    prints nothing and leaves the storage as it is. *)
Theorem Repl_reads_nothing_after_exit (pre rest : list string) e (g : S) :
  ReplApplication.shouldExit e = true →
  ReplApplication.run (e :: rest) g = (["REPL > "], Done () g)
  ∧ ReplApplication.run (pre ++ e :: rest) g
    = ReplApplication.run (pre ++ [e]) g.
Proof.
  intros He.
  assert (Hexit : ∀ rest' (g' : S),
            ReplApplication.run (e :: rest') g' = (["REPL > "], Done () g'))
    by (intros; by apply run_exit).
  split; [apply Hexit|].
  revert g. induction pre as [|l pre IH]; intros g.
  - cbn [app]. by rewrite !Hexit.
  - cbn [app ReplApplication.run].
    destruct (ReplApplication.turn l g) as [[out|] s|p s]; [|done..].
    by rewrite IH.
Qed.

(** Without such a line the session cannot end well: when the input runs
    out the read fails and the loop panics, unless a line panicked
    before.  So [run] returns only after an ["exit"] line. *)
Theorem Repl_returns_only_after_exit (stdin : list string) (g : S) :
  (∀ g', (ReplApplication.run stdin g).2 = Done () g' →
         ∃ e, e ∈ stdin ∧ ReplApplication.shouldExit e = true)
  ∧ (forallb (λ l, negb (ReplApplication.shouldExit l)) stdin = true →
     ∃ p g', (ReplApplication.run stdin g).2 = Panicked p g')
  ∧ (ReplApplication.run [] g = (["REPL > "], Panicked PanicReadError g)).
Proof.
  assert (Hdone : ∀ stdin' (g0 g' : S),
            (ReplApplication.run stdin' g0).2 = Done () g' →
            ∃ e, e ∈ stdin' ∧ ReplApplication.shouldExit e = true).
  { induction stdin' as [|l stdin' IH]; intros g0 g'; [discriminate|].
    cbn [ReplApplication.run]. unfold ReplApplication.turn at 1.
    destruct (ReplApplication.shouldExit l) eqn:El.
    - intros _. exists l. split; [left | done].
    - unfold mbind.
      destruct (ReplApplication.dispatch _ g0) as [out s|p s];
        [|discriminate].
      unfold mret. destruct (ReplApplication.run stdin' s) as [outs r] eqn:Er.
      cbn [snd]. intros Hr.
      destruct (IH s g') as (e & He & Hx); [by rewrite Er|].
      exists e. split; [by right | done]. }
  split_and!.
  - intros g'. apply Hdone.
  - intros Hno.
    destruct (ReplApplication.run stdin g) as [outs [[] g'|p g']] eqn:Er.
    + destruct (Hdone stdin g g') as (e & He & Hx); [by rewrite Er|].
      rewrite forallb_forall in Hno.
      apply list_elem_of_In, Hno in He. by rewrite Hx in He.
    + cbn [snd]. eauto.
  - reflexivity.
Qed.
End Repl_sessions.

Lemma Repl_reads_nothing_after_exit_witness :
  ReplApplication.shouldExit (line "  exit ") = true
  ∧ main [line "CREATE;a;b"; line "  exit "; line "READ;x"]
    = main [line "CREATE;a;b"; line "  exit "].
Proof.
  assert (He : ReplApplication.shouldExit (line "  exit ") = true)
    by reflexivity.
  split; [exact He|].
  exact (proj2 (Repl_reads_nothing_after_exit (S := Globals)
                  [line "CREATE;a;b"] [line "READ;x"] _ initial He)).
Defined.

Lemma Repl_returns_only_after_exit_witness :
  forallb (λ l, negb (ReplApplication.shouldExit l))
    [line "CREATE;a;b"; line "READALL"] = true
  ∧ ∃ p g',
      (main [line "CREATE;a;b"; line "READALL"]).2 = Panicked p g'.
Proof.
  assert (H : forallb (λ l, negb (ReplApplication.shouldExit l))
                [line "CREATE;a;b"; line "READALL"] = true) by reflexivity.
  split; [exact H|].
  destruct (Repl_returns_only_after_exit (S := Globals)
              [line "CREATE;a;b"; line "READALL"] initial) as (_ & Hp & _).
  exact (Hp H).
Defined.

(** ** The HTTP front-end *)

Section Http_facts.
Context {S : Type} `{!Storage S}.

Lemma execute_then_present {R} (f : S → R * S) (k : R → string) (g : S) :
  mbind (liftS f) (λ r, mret (k r)) g = Done (k (f g).1) (f g).2.
Proof. unfold mbind, liftS, mret. by destruct (f g). Qed.

(** Whatever the request and whatever the storage holds, the body of a
    response is the empty JSON object and a newline: no field of a result
    or of a note is exported, so nothing of a note is ever sent. *)
Theorem Http_bodies_are_empty_objects quote r (g g' : S) body :
  HttpApplication.handler quote r g = Done body g' → body = line "{}".
Proof.
  unfold HttpApplication.handler, HttpApplication.handleGet,
    HttpApplication.handlePost, HttpApplication.handlePut,
    HttpApplication.handleDelete.
  repeat match goal with
         | |- context [if ?b then _ else _] => destruct b
         end;
    try destruct (strconv.Atoi _) as [v [e|]];
    try discriminate;
    rewrite execute_then_present; by intros [= <- _].
Qed.

End Http_facts.

Lemma Http_bodies_are_empty_objects_witness :
  let g := mkGlobals 1 {[ 1 := mkNote 1 "A" "B" ]} in
  ∃ g',
    HttpApplication.handler json.quotePlain (mkRequest "POST" [("name", "x")]) g
    = Done (line "{}") g'.
Proof.
  intros g.
  destruct (HttpApplication.handler json.quotePlain
              (mkRequest "POST" [("name", "x")]) g) as [body g'|p g'] eqn:E.
  - exists g'. f_equal.
    exact (Http_bodies_are_empty_objects (S := Globals) _ _ _ _ _ E).
  - discriminate E.
Defined.



(** ** Numbers in REPL input *)

Section Atoi_round_trip.
Import strconv.

Lemma digits_le s n v : 0 ≤ n → digits n s = Some v → n ≤ v.
Proof.
  revert n. induction s as [|c r IH]; intros n Hn; cbn [digits].
  { intros [= <-]. lia. }
  destruct (digit c) as [d|] eqn:Ed; [|done].
  apply digit_bound in Ed. intros H%IH; lia.
Qed.

(** On a run of digits whose value fits [uint64], [parseUint] returns
    that value. *)
Lemma parseUint_digits s n v :
  0 ≤ n → digits n s = Some v → v ≤ maxUint64 → parseUint n s = (v, None).
Proof.
  rewrite maxUint64_eq.
  revert n. induction s as [|c r IH]; intros n Hn; cbn [digits parseUint].
  { by intros [= <-]. }
  destruct (digit c) as [d|] eqn:Ed; [|done].
  apply digit_bound in Ed. intros Hd Hv.
  pose proof (digits_le r (10 * n + d) v ltac:(lia) Hd) as Hle.
  change (maxUint64 / 10 + 1) with 1844674407370955162.
  destruct (Z.leb_spec 1844674407370955162 n) as [Hc|_]; [lia|].
  cbv zeta. change (2 ^ 64) with 18446744073709551616.
  rewrite (Z.mod_small (n * 10 + d)) by lia.
  rewrite maxUint64_eq.
  destruct (Z.ltb_spec (n * 10 + d) (n * 10)) as [Hc|_]; [lia|].
  destruct (Z.ltb_spec 18446744073709551615 (n * 10 + d)) as [Hc|_]; [lia|].
  cbn [orb]. replace (n * 10 + d) with (10 * n + d) by lia.
  apply IH; [lia | exact Hd | exact Hv].
Qed.

Lemma digits_string_of_uint_pos d p :
  digits (Z.pos p) (NilEmpty.string_of_uint d)
  = Some (Z.pos (Pos.of_uint_acc d p)).
Proof.
  revert p. induction d; intros p; [done|..];
    cbn [NilEmpty.string_of_uint digits Pos.of_uint_acc];
    match goal with
    | |- context [digit ?c] =>
        let v := eval vm_compute in (digit c) in change (digit c) with v
    end;
    cbv iota beta; rewrite <- IHd; f_equal; lia.
Qed.

Lemma digits_string_of_uint d :
  digits 0 (NilEmpty.string_of_uint d) = Some (Z.of_N (Pos.of_uint d)).
Proof.
  induction d; [done|..];
    cbn [NilEmpty.string_of_uint digits Pos.of_uint];
    match goal with
    | |- context [digit ?c] =>
        let v := eval vm_compute in (digit c) in change (digit c) with v
    end;
    cbv iota beta; [exact IHd|..]; apply digits_string_of_uint_pos.
Qed.

Lemma string_of_uint_unsigned d :
  d ≠ Decimal.Nil →
  ∃ c r, NilEmpty.string_of_uint d = String c r
         ∧ signed (String c r) = (false, String c r).
Proof. destruct d; [done|..]; intros _; eauto. Qed.

Lemma Itoa_pos_digits p :
  ∃ c r, NilZero.string_of_uint (Pos.to_uint p) = String c r
         ∧ signed (String c r) = (false, String c r)
         ∧ digits 0 (String c r) = Some (Z.pos p).
Proof.
  pose proof (DecimalPos.Unsigned.to_uint_nonnil p) as Hnil.
  pose proof (digits_string_of_uint (Pos.to_uint p)) as Hd.
  rewrite DecimalPos.Unsigned.of_to in Hd. cbn [Z.of_N] in Hd.
  destruct (string_of_uint_unsigned _ Hnil) as (c & r & Hs & Hsig).
  exists c, r. rewrite <- Hs. split_and!; [|by rewrite Hs|done].
  by destruct (Pos.to_uint p).
Qed.

Lemma Atoi_Itoa z : GoInt.in_range z → Atoi (Itoa z) = (z, None).
Proof.
  unfold GoInt.in_range. rewrite minInt_eq, maxInt_eq. intros Hz.
  destruct z as [|p|p]; [done|..];
    destruct (Itoa_pos_digits p) as (c & r & Hs & Hsig & Hd);
    apply parseUint_digits in Hd; [|done|rewrite maxUint64_eq; lia| |done
                                   |rewrite maxUint64_eq; lia];
    unfold Itoa, Atoi, ParseInt; cbn [Z.to_int NilZero.string_of_int];
    rewrite Hs.
  - rewrite Hsig. unfold ParseUint. rewrite Hd. cbv zeta.
    change (2 ^ 63) with 9223372036854775808.
    destruct (Z.leb_spec 9223372036854775808 (Z.pos p)) as [Hc|_]; [lia|].
    cbn [negb andb fmap option_fmap option_map].
    rewrite wrap_id; [done|].
    unfold GoInt.in_range. rewrite minInt_eq, maxInt_eq. lia.
  - cbn [signed append]. unfold ParseUint. rewrite Hd. cbv zeta.
    change (2 ^ 63) with 9223372036854775808.
    destruct (Z.ltb_spec 9223372036854775808 (Z.pos p)) as [Hc|_]; [lia|].
    cbn [negb andb fmap option_fmap option_map].
    destruct (decide (p = 9223372036854775808%positive)) as [->|Hne]; [done|].
    assert (Hlt : Z.pos p < 9223372036854775808).
    { apply Z.le_neq. split; [lia|]. by intros [= ->]. }
    rewrite (wrap_id (Z.pos p))
      by (unfold GoInt.in_range; rewrite minInt_eq, maxInt_eq; lia).
    rewrite wrap_id; [done|].
    unfold GoInt.in_range. rewrite minInt_eq, maxInt_eq. lia.
Qed.
End Atoi_round_trip.

(** The decimal rendering of a valid [int] parses back to it: [Atoi]
    accepts it and returns the number, so the READ and UPDATE parsers given
    the rendering of an id as the id token yield a message with that
    id. *)
Theorem Atoi_reads_back_a_printed_id (z : Z) :
  GoInt.in_range z →
  strconv.Atoi (strconv.Itoa z) = (z, None)
  ∧ (∀ a0 more,
       ReadParser.fromRepl (a0 :: strconv.Itoa z :: more)
       = Ret (mkReadMessage z))
  ∧ (∀ a0 name content more,
       UpdateParser.fromRepl (a0 :: strconv.Itoa z :: name :: content :: more)
       = Ret (mkUpdateMessage z name content)).
Proof.
  intros Hz. pose proof (Atoi_Itoa z Hz) as H. split_and!.
  - exact H.
  - intros a0 more. unfold ReadParser.fromRepl, index, ebind.
    cbn [lookup list_lookup]. by rewrite H.
  - intros a0 name content more. unfold UpdateParser.fromRepl, index, ebind.
    cbn [lookup list_lookup]. by rewrite H.
Qed.

Lemma Atoi_reads_back_a_printed_id_witness :
  GoInt.in_range (-42)
  ∧ strconv.Itoa (-42) = "-42"
  ∧ ReadParser.fromRepl ["READ"; strconv.Itoa (-42)] = Ret (mkReadMessage (-42)).
Proof.
  assert (Hr : GoInt.in_range (-42)) by (split; discriminate).
  split_and!; [exact Hr | reflexivity |].
  exact (proj1 (proj2 (Atoi_reads_back_a_printed_id (-42) Hr)) "READ" []).
Defined.



(** ** The grammar of a REPL line *)

Section Line_grammar.
Import strconv strings.

Lemma list_ascii_of_string_app a b :
  list_ascii_of_string (a +:+ b)
  = list_ascii_of_string a ++ list_ascii_of_string b.
Proof. induction a as [|c a IH]; [done|]. simpl. f_equal. exact IH. Qed.

Lemma spaceWidth_plain c s : plainByte c = true → spaceWidth (c :: s) = 0%nat.
Proof.
  unfold plainByte, spaceWidth. cbn [fmap list_fmap].
  intros [Hlt Hsp%negb_true_iff]%andb_true_iff. rewrite Hsp.
  apply Z.ltb_lt in Hlt.
  destruct s as [|c1 [|c2 s]]; cbn [fmap list_fmap]; [done|..];
    unfold space2, space3;
    repeat match goal with
           | |- context [?a =? ?b] => destruct (Z.eqb_spec a b); try lia
           end; reflexivity.
Qed.

Lemma spaceWidthRev_plain c s :
  plainByte c = true → spaceWidthRev (c :: s) = 0%nat.
Proof.
  unfold plainByte, spaceWidthRev. cbn [fmap list_fmap].
  intros [Hlt Hsp%negb_true_iff]%andb_true_iff. rewrite Hsp.
  apply Z.ltb_lt in Hlt.
  destruct s as [|c1 [|c2 s]]; cbn [fmap list_fmap]; [done|..];
    unfold space2, space3;
    repeat match goal with
           | |- context [?a =? ?b] => destruct (Z.eqb_spec a b); try lia
           end;
    repeat match goal with
           | |- context [?a <=? ?b] => destruct (Z.leb_spec a b); try lia
           end; reflexivity.
Qed.

Lemma trim_stop width fuel s : width s = 0%nat → trim width fuel s = s.
Proof. intros H. destruct fuel; cbn [trim]; [done|]. by rewrite H. Qed.

Lemma cleanToken_inv t :
  cleanToken t = true →
  (";"%char ∉ list_ascii_of_string t)
  ∧ (list_ascii_of_string t = []
     ∨ ∃ c r c' r',
         list_ascii_of_string t = c :: r ∧ plainByte c = true
         ∧ list_ascii_of_string t = r' ++ [c'] ∧ plainByte c' = true).
Proof.
  unfold cleanToken. cbv zeta.
  intros [Hsep Hends]%andb_true_iff. split.
  - rewrite forallb_forall in Hsep. intros Hin%list_elem_of_In.
    apply Hsep in Hin. discriminate Hin.
  - destruct (list_ascii_of_string t) as [|c r] eqn:E; [by left|right].
    apply andb_true_iff in Hends as [Hc Hl].
    exists c, r, (List.last (c :: r) c), (removelast (c :: r)).
    split_and!; [done | done | | done].
    by apply app_removelast_last.
Qed.

Lemma trim_both_plain l :
  (l = [] ∨ ∃ c r c' r', l = c :: r ∧ plainByte c = true
                         ∧ l = r' ++ [c'] ∧ plainByte c' = true) →
  TrimRightSpace (TrimLeftSpace l) = l
  ∧ TrimRightSpace (TrimLeftSpace (l ++ ["010"%char])) = l.
Proof.
  intros [->|(c & r & c' & r' & Hl & Hc & Hr & Hc')]; [done|].
  assert (Hrev : spaceWidthRev (reverse l) = 0%nat).
  { rewrite Hr, reverse_snoc. by apply spaceWidthRev_plain. }
  unfold TrimLeftSpace, TrimRightSpace. split.
  - rewrite (trim_stop spaceWidth _ l) by (rewrite Hl; by apply spaceWidth_plain).
    rewrite trim_stop by done. apply reverse_involutive.
  - rewrite (trim_stop spaceWidth _ (l ++ _))
      by (rewrite Hl; by apply spaceWidth_plain).
    rewrite reverse_snoc, length_app, Nat.add_1_r. cbn [trim].
    change (spaceWidthRev ("010"%char :: reverse l)) with 1%nat.
    cbn [drop]. rewrite trim_stop by done. apply reverse_involutive.
Qed.

Lemma TrimSpace_clean t :
  cleanToken t = true → TrimSpace t = t ∧ TrimSpace (line t) = t.
Proof.
  intros [_ Hends]%cleanToken_inv.
  destruct (trim_both_plain _ Hends) as [H1 H2].
  unfold TrimSpace, line. rewrite list_ascii_of_string_app.
  change (list_ascii_of_string (String "010" EmptyString))
    with ["010"%char].
  rewrite H1, H2. by rewrite string_of_list_ascii_of_string.
Qed.

Lemma split_app_sep l rest :
  ";"%char ∉ l → split ";" (l ++ ";"%char :: rest) = l :: split ";" rest.
Proof.
  induction l as [|c l IH]; [done|].
  rewrite not_elem_of_cons. intros [Hc Hl]. cbn [app split].
  destruct (Ascii.eqb_spec c ";"); [congruence|]. by rewrite IH.
Qed.

Lemma tokens_last t :
  cleanToken t = true → ReplApplication.tokens (line t) = [t].
Proof.
  intros Ht. unfold ReplApplication.tokens, Split.
  destruct (cleanToken_inv t Ht) as [Hsep _].
  rewrite split_no_sep.
  - cbn [fmap list_fmap]. rewrite string_of_list_ascii_of_string.
    by rewrite (proj2 (TrimSpace_clean t Ht)).
  - unfold line. rewrite list_ascii_of_string_app, not_elem_of_app.
    split; [done|]. cbn. rewrite not_elem_of_cons.
    split; [discriminate | apply not_elem_of_nil].
Qed.

Lemma tokens_step t rest :
  cleanToken t = true →
  ReplApplication.tokens (line (t +:+ ";" +:+ rest))
  = t :: ReplApplication.tokens (line rest).
Proof.
  intros Ht. unfold ReplApplication.tokens, Split.
  destruct (cleanToken_inv t Ht) as [Hsep _].
  assert (Hl : list_ascii_of_string (line (t +:+ ";" +:+ rest))
               = list_ascii_of_string t
                 ++ ";"%char :: list_ascii_of_string (line rest)).
  { unfold line. rewrite !list_ascii_of_string_app.
    by rewrite <- !app_assoc. }
  rewrite Hl, split_app_sep by done.
  rewrite !fmap_cons, string_of_list_ascii_of_string.
  by rewrite (proj1 (TrimSpace_clean t Ht)).
Qed.

(** The tokens of a line are the fields it was written from: joining
    tokens with [";"] and ending the line gives a line whose tokens are
    those, as long as no token contains [";"] and each one is empty or
    starts and ends with a byte that is ASCII and not white space. *)
Theorem tokens_of_a_written_line (toks : list string) :
  toks ≠ [] →
  forallb cleanToken toks = true →
  ReplApplication.tokens (line (String.concat ";" toks)) = toks.
Proof.
  destruct toks as [|t ts]; [done|]. intros _. revert t.
  induction ts as [|t' ts IH]; intros t Hc;
    cbn [forallb] in Hc; apply andb_true_iff in Hc as [Ht Hts].
  - by apply tokens_last.
  - change (String.concat ";" (t :: t' :: ts))
      with (t +:+ ";" +:+ String.concat ";" (t' :: ts)).
    rewrite tokens_step by done. f_equal. by apply IH.
Qed.
End Line_grammar.

Lemma tokens_of_a_written_line_witness :
  forallb cleanToken ["UPDATE"; "7"; ""; "two words"] = true
  ∧ ReplApplication.tokens (line "UPDATE;7;;two words")
    = ["UPDATE"; "7"; ""; "two words"].
Proof.
  assert (H : forallb cleanToken ["UPDATE"; "7"; ""; "two words"] = true)
    by reflexivity.
  split; [exact H|].
  exact (tokens_of_a_written_line ["UPDATE"; "7"; ""; "two words"]
           ltac:(discriminate) H).
Defined.

(** ** A whole REPL session *)

Section Lines.

Lemma noNewline_app a b :
  noNewline (a +:+ b) = noNewline a && noNewline b.
Proof.
  unfold noNewline. by rewrite list_ascii_of_string_app, forallb_app.
Qed.

(** A text without a line feed, ended by one, is a line of the input. *)
Lemma isLine_line t : noNewline t = true → isLine (line t) = true.
Proof.
  unfold noNewline, line. induction t as [|c t IH]; [done|].
  cbn [list_ascii_of_string forallb].
  intros [Hc Ht]%andb_true_iff. apply negb_true_iff in Hc. simpl.
  rewrite Hc. by apply IH.
Qed.
End Lines.

(** From the initial state, the line [CREATE;name;content] followed by
    [READALL] and [exit] prints the created note with id 1, then the
    collection holding just that note, and ends the session normally with
    that note stored under key 1: for a name and a content without a line
    feed, so that the three strings are lines that [ReadString] returns,
    and that a line carries as they are. *)
Theorem Repl_create_then_readall (name content : string) :
  cleanToken name = true → cleanToken content = true →
  noNewline name = true → noNewline content = true →
  forallb isLine
    [line (String.concat ";" ["CREATE"; name; content]);
     line "READALL"; line "exit"] = true
  ∧ main [line (String.concat ";" ["CREATE"; name; content]);
          line "READALL"; line "exit"]
    = (["REPL > ";
        ReplPresenter.present
          (CreateResult_value (mkCreateResult (mkNote 1 name content)));
        "REPL > ";
        ReplPresenter.present
          (ReadAllResult_value (mkReadAllResult [mkNote 1 name content]));
        "REPL > "],
       Done () (mkGlobals 1 {[ 1 := mkNote 1 name content ]})).
Proof.
  intros Hn Hc Hnl Hcl. split.
  { cbn [forallb]. rewrite isLine_line; [done|].
    change (String.concat ";" ["CREATE"; name; content])
      with ("CREATE" +:+ ";" +:+ (name +:+ ";" +:+ content)).
    rewrite !noNewline_app, Hnl, Hcl. reflexivity. }
  unfold main.
  assert (Htok : ReplApplication.tokens
                   (line (String.concat ";" ["CREATE"; name; content]))
                 = ["CREATE"; name; content]).
  { change (String.concat ";" ["CREATE"; name; content])
      with ("CREATE" +:+ ";" +:+ (name +:+ ";" +:+ content)).
    rewrite !tokens_step by done. by rewrite tokens_last. }
  pose proof (turn_Done _ _ _ _ initial _ Htok ltac:(discriminate)
                (dispatch_CREATE name content [] initial)) as Hcreate.
  cbn [Create InMemoryStorage_Storage] in Hcreate.
  rewrite Create_eq in Hcreate. cbn [fst snd] in Hcreate.
  change (GoInt.wrap (id initial + 1)) with 1 in Hcreate.
  change (noteMap initial) with (∅ : gmap Z Note) in Hcreate.
  rewrite insert_empty in Hcreate.
  rewrite (run_continue _ _ _ _ _ Hcreate).
  set (g1 := mkGlobals 1 {[ 1 := mkNote 1 name content ]}).
  pose proof (turn_Done (line "READALL") "READALL" [] _ g1 _ eq_refl
                ltac:(discriminate) (dispatch_READALL [] g1)) as Hall.
  cbn [ReadAll InMemoryStorage_Storage] in Hall.
  unfold InMemoryStorage.ReadAll in Hall. cbn [g1 noteMap] in Hall.
  rewrite map_to_list_singleton in Hall. cbn [fmap list_fmap snd] in Hall.
  rewrite (run_continue _ _ _ _ _ Hall).
  by rewrite (run_exit (line "exit") [] g1 eq_refl).
Qed.

Lemma Repl_create_then_readall_witness :
  (cleanToken "foo" = true ∧ cleanToken "bar" = true
   ∧ noNewline "foo" = true ∧ noNewline "bar" = true)
  ∧ main [line "CREATE;foo;bar"; line "READALL"; line "exit"]
    = (["REPL > "; line "{{1 foo bar}}"; "REPL > "; line "{[{1 foo bar}]}";
        "REPL > "],
       Done () (mkGlobals 1 {[ 1 := mkNote 1 "foo" "bar" ]})).
Proof.
  split; [split_and!; reflexivity|].
  exact (proj2 (Repl_create_then_readall "foo" "bar"
                  eq_refl eq_refl eq_refl eq_refl)).
Defined.

(** ** Storage: one note at a time *)

(** [Delete] of a present id and [Update] of a present id touch exactly
    one note of the collection.  After the [Delete], [ReadAll] returns what
    it returned before without the deleted note, one note fewer; after the
    [Update] it returns what it returned before with the updated note in
    the place of the old one, as many notes as before. *)
Theorem Delete_and_Update_touch_one_note (g : Globals) (i : Id) (old : Note) :
  noteMap g !! i = Some old →
  ∃ others,
    InMemoryStorage.ReadAll g ≡ₚ old :: others
    ∧ (let '(d, g') := InMemoryStorage.Delete i g in
       d = old
       ∧ size (noteMap g) = Datatypes.S (size (noteMap g'))
       ∧ ∀ notes, InMemoryStorage.ReadAllMay g' notes → notes ≡ₚ others)
    ∧ (∀ name content,
         let '(n, g') := InMemoryStorage.Update i name content g in
         size (noteMap g') = size (noteMap g)
         ∧ ∀ notes, InMemoryStorage.ReadAllMay g' notes →
                    notes ≡ₚ n :: others).
Proof.
  intros Hold. exists ((map_to_list (delete i (noteMap g))).*2).
  pose proof (map_to_list_delete _ _ _ Hold) as Hdel.
  unfold InMemoryStorage.ReadAllMay, InMemoryStorage.ReadAll.
  split_and!.
  - by rewrite <- Hdel.
  - rewrite Delete_eq, Hold. cbn [default noteMap]. split_and!.
    + reflexivity.
    + rewrite <- !length_map_to_list, <- Hdel. reflexivity.
    + by intros notes ->.
  - intros name content. rewrite Update_eq. cbn [noteMap]. split.
    + apply map_size_insert_Some. eauto.
    + intros notes ->. rewrite <- insert_delete_eq.
      by rewrite map_to_list_insert by apply lookup_delete_eq.
Qed.

Lemma Delete_and_Update_touch_one_note_witness :
  let g := mkGlobals 2 (<[2 := mkNote 2 "C" "D"]> {[ 1 := mkNote 1 "A" "B" ]}) in
  noteMap g !! 2 = Some (mkNote 2 "C" "D")
  ∧ ∃ others, InMemoryStorage.ReadAll g ≡ₚ mkNote 2 "C" "D" :: others.
Proof.
  intros g.
  assert (H : noteMap g !! 2 = Some (mkNote 2 "C" "D"))
    by apply lookup_insert_eq.
  split; [exact H|].
  destruct (Delete_and_Update_touch_one_note g 2 _ H) as (others & Hall & _).
  by exists others.
Defined.

(** ** The REPL: DELETE and the number of tokens *)

(** On the in-memory storage a DELETE line, whatever id it names, only
    ever removes key 0: the counter and every note under another key stay
    as they are, so a note that CREATE stored under a non-zero id cannot be
    deleted from the REPL. *)
Theorem Repl_DELETE_only_removes_key_0 input args (g : Globals) :
  ReplApplication.tokens input = "DELETE" :: args →
  ∃ out g',
    ReplApplication.turn input g = Done (Some out) g'
    ∧ id g' = id g
    ∧ noteMap g' = delete 0 (noteMap g)
    ∧ ∀ k, k ≠ 0 → InMemoryStorage.Read k g' = InMemoryStorage.Read k g.
Proof.
  intros Htok.
  rewrite (turn_dispatch input "DELETE" args g Htok) by discriminate.
  unfold mbind at 1. rewrite dispatch_eq. cbn [String.eqb Ascii.eqb Bool.eqb].
  unfold ReplApplication.handleDelete, mbind, liftS, mret,
    DeleteCommand.execute, DeleteParser.fromRepl.
  cbn [Delete InMemoryStorage_Storage DeleteMessage_id].
  rewrite Delete_eq. eexists _, _. split_and!; [reflexivity..|].
  intros k Hk. rewrite !Read_lookup. cbn [noteMap].
  by rewrite lookup_delete_ne.
Qed.

Lemma Repl_DELETE_only_removes_key_0_witness :
  let g := mkGlobals 1 {[ 1 := mkNote 1 "A" "B" ]} in
  ReplApplication.tokens (line "DELETE;1") = ["DELETE"; "1"]
  ∧ ∃ out g',
      ReplApplication.turn (line "DELETE;1") g = Done (Some out) g'
      ∧ InMemoryStorage.Read 1 g' = mkNote 1 "A" "B".
Proof.
  intros g.
  assert (H : ReplApplication.tokens (line "DELETE;1") = ["DELETE"; "1"])
    by reflexivity.
  split; [exact H|].
  destruct (Repl_DELETE_only_removes_key_0 _ _ g H)
    as (out & g' & Hturn & _ & _ & Hkeep).
  exists out, g'. split; [exact Hturn|].
  rewrite Hkeep by discriminate. reflexivity.
Defined.
